(** * ObservableState: a shallow embedding of src/state/observable-state.ts

    The container is modelled as an explicit record of the class fields and
    of the subscriptions that hang off its RxJS subjects.  Every public
    method is a function on that record; the environment (producers bound by
    [connect], the optional input stream of [initialize], consumers that
    subscribe) acts through an event type.

    The class imports its operators from the root of the rxjs package, which
    is RxJS 7.  What the model takes from that library, per subscription:
    - BehaviorSubject: [next] stores the value and then notifies the
      subscribers in subscription order; [subscribe] replays the stored value.
    - Subject ([destroy$$]): [next] notifies the current subscribers; once
      completed, [next] does nothing and a new subscriber is only told
      [complete].
    - ReplaySubject(1): as Subject, and [subscribe] replays the last value.
    - [filter], [map]: stateless.
    - [distinctUntilChanged(cmp)]: the first value passes; a later one
      passes unless [cmp(previousKey, value)], and becomes [previousKey]
      when it passes.
    - [takeUntil(n)]: subscribes to [n] first; a value of [n] completes the
      result and unsubscribes the source; completion of [n] alone is
      ignored.
    - [combineLatest]: emits the latest values on every value of an input,
      once each input has produced one.
    - [switchMap]: on every outer value drops the inner subscription and
      subscribes to the projected stream.
    - [startWith(v)]: hands on [v], then subscribes to the source.
    - An exception thrown by a subscriber callback is reported
      asynchronously; it neither reaches the producer nor ends the
      subscription.
    - An error notification, or an exception thrown while a stream is being
      subscribed, ends the subscription it travels down; with no error
      callback at the end it is reported asynchronously.

    States, partial states and the trigger registry are plain objects: a
    read of a name they do not own falls through to [Object.prototype]. *)

From stdpp Require Import base option list strings gmap fin_maps.
From Stdlib Require Import ZArith Lia.

Set Default Proof Using "Type".

(** ** JavaScript values and objects *)

(** Field values have type [unknown]; only [===] is ever applied to them.
    Primitives compare by content, objects by reference, and NaN is not
    equal to itself.  [VBuiltin name] is the object that [Object.prototype]
    holds under [name]; [VRef] are all other objects. *)
Inductive JSValue :=
  | VUndefined
  | VNull
  | VBool (b : bool)
  | VNum (n : Z)
  | VNaN
  | VStr (s : string)
  | VRef (l : positive)
  | VBuiltin (name : string).

(** [a === b] *)
Definition strict_eq (a b : JSValue) : bool :=
  match a, b with
  | VUndefined, VUndefined => true
  | VNull, VNull => true
  | VBool x, VBool y => Bool.eqb x y
  | VNum x, VNum y => Z.eqb x y
  | VStr x, VStr y => String.eqb x y
  | VRef x, VRef y => Pos.eqb x y
  | VBuiltin x, VBuiltin y => String.eqb x y
  | _, _ => false
  end.

(** The names a plain object inherits from [Object.prototype]; what it
    holds under each of them is an object, hence truthy. *)
Definition Object_prototype : list string :=
  ["constructor"; "__defineGetter__"; "__defineSetter__"; "hasOwnProperty";
   "__lookupGetter__"; "__lookupSetter__"; "isPrototypeOf";
   "propertyIsEnumerable"; "toString"; "valueOf"; "__proto__";
   "toLocaleString"].

Definition inherited (key : string) : bool :=
  existsb (String.eqb key) Object_prototype.

(** A state of type [T extends Record<string, unknown>], and equally a
    [Partial<T>]: a finite map from own enumerable keys to values. *)
Abbreviation State := (gmap string JSValue).

(** [o[key]]: an own property, else what [Object.prototype] holds under
    the name, else [undefined]. *)
Definition prop (o : State) (key : string) : JSValue :=
  match o !! key with
  | Some v => v
  | None => if inherited key then VBuiltin key else VUndefined
  end.

(** [Object.keys(o)] *)
Definition Object_keys {A} (o : gmap string A) : list string :=
  (map_to_list o).*1.

(** ** Errors and results *)

Inductive Error :=
  | Uninitialized          (* notInitializedError *)
  | NoTriggerRegistered    (* 'There is no trigger registered for this key! ...' *)
  | TypeError              (* raised by the runtime or by RxJS, not by the class *)
  | ProducerFailed.        (* the error notification of an external stream *)

Inductive Result (A : Type) :=
  | Ok (a : A)
  | Throw (e : Error).
Arguments Ok {A} a.
Arguments Throw {A} e.

(** ** The selection pipelines

    [state$], [onlySelectWhen(keys)] and [select(key)] are all
    [state$$.syncState.pipe(filterAndCastToT(), distinctUntilChanged(cmp),
    takeUntil(destroy$$))], the last one followed by [map(state => state[key])]. *)

Inductive StreamKind :=
  | StateStream                          (* state$ *)
  | OnlySelectWhen (keys : list string)  (* onlySelectWhen(keys) *)
  | Select (key : string).               (* select(key) *)

(** The comparator of [state$]: every key of [current] is unchanged. *)
Definition state_comparator (previous current : State) : bool :=
  forallb (λ key, strict_eq (prop current key) (prop previous key))
          (Object_keys current).

(** The comparator of [onlySelectWhen(keys)]: every listed key is unchanged. *)
Definition keys_comparator (keys : list string) (previous current : State) : bool :=
  forallb (λ key, strict_eq (prop current key) (prop previous key)) keys.

(** The comparator handed to [distinctUntilChanged] by each stream. *)
Definition comparator (k : StreamKind) : State → State → bool :=
  match k with
  | StateStream => state_comparator
  | OnlySelectWhen keys => keys_comparator keys
  | Select key => keys_comparator [key]
  end.

(** [filterAndCastToT]: drop [null], keep a state. *)
Definition filterAndCastToT (v : option State) : list State :=
  match v with
  | None => []
  | Some s => [s]
  end.

(** [distinctUntilChanged(cmp)]: [prev] is the operator's [previousKey]
    ([None] while [first] is still set).  Returns the new [previousKey] and
    what is passed on. *)
Definition distinctUntilChanged (cmp : State → State → bool)
    (prev : option State) (value : State) : option State * list State :=
  match prev with
  | None => (Some value, [value])
  | Some previousKey =>
      if cmp previousKey value then (prev, []) else (Some value, [value])
  end.

(** One subscription to one of the selection streams. *)
Record Observer := mkObserver {
  obs_kind : StreamKind;
  obs_prev : option State;    (* distinctUntilChanged: last state passed on *)
  obs_closed : bool;          (* takeUntil: destroy$$ has fired for it *)
  obs_log : list State        (* states that left takeUntil, oldest first *)
}.

Definition new_observer (k : StreamKind) : Observer :=
  mkObserver k None false [].

(** What the consumer's callback receives. *)
Inductive Emission :=
  | EmitState (s : State)
  | EmitValue (v : JSValue).

Definition emission (k : StreamKind) (s : State) : Emission :=
  match k with
  | Select key => EmitValue (prop s key)     (* map(state => state[key]) *)
  | _ => EmitState s
  end.

Definition received (o : Observer) : list Emission :=
  emission (obs_kind o) <$> obs_log o.

(** A notification of the BehaviorSubject travelling down one pipeline.
    [value] is [this.value] as read by [syncState]. *)
Definition observer_next (value : option State) (o : Observer) : Observer :=
  if obs_closed o then o
  else
    foldl (λ o s,
             let '(prev, out) :=
               distinctUntilChanged (comparator (obs_kind o)) (obs_prev o) s in
             mkObserver (obs_kind o) prev (obs_closed o) (obs_log o ++ out))
          o (filterAndCastToT value).

(** [destroy$$.next()] reaching the [takeUntil] of the pipeline. *)
Definition observer_close (o : Observer) : Observer :=
  mkObserver (obs_kind o) (obs_prev o) true (obs_log o).

(** ** Producer bindings *)

(** The identity of an external Observable object, and of one subscription
    the container holds on such an object. *)
Abbreviation Producer := nat.
Abbreviation SubId := nat.

(** [new ReplaySubject<void>(1)] *)
Record ReplaySubject := mkReplay {
  rs_buffer : option unit;   (* the one replayed value *)
  rs_fired : nat             (* number of next() calls so far *)
}.

Definition rs_new : ReplaySubject := mkReplay None 0.

(** [next()] on it. *)
Definition rs_next (r : ReplaySubject) : ReplaySubject :=
  mkReplay (Some ()) (S (rs_fired r)).

(** One [combineLatest([trigger, producer]).pipe(switchMap(..),
    takeUntil(destroy$$)).subscribe(..)] created by [connect]. *)
Record Binding := mkBinding {
  bind_key : string;
  bind_source : Producer;         (* object[typedKey] *)
  bind_outer : SubId;             (* combineLatest's subscription to the producer *)
  bind_triggered : bool;          (* combineLatest holds a value of the trigger *)
  bind_latest : option JSValue;   (* combineLatest: latest producer value *)
  bind_inner : option SubId;      (* switchMap: the active inner subscription *)
  bind_closed : bool;             (* ended: destroy$$ fired, or the producer failed *)
  bind_emitted : list JSValue     (* values handed to the subscriber, oldest first *)
}.

(** The subscription of [initialize] to [inputState$]. *)
Record InputSub := mkInput {
  in_source : Producer;           (* inputState$ *)
  in_sub : SubId;
  in_closed : bool;
  in_emitted : list State
}.

(** ** The container *)

Record Container := mkContainer {
  state_value : option State;          (* state$$.value, None for null *)
  state_observers : list Observer;     (* subscriptions to the selection streams *)
  state_pushes : list State;           (* every argument of state$$.next, oldest first *)
  destroy_stopped : bool;              (* destroy$$ has completed *)
  triggers : gmap string ReplaySubject;
  bindings : list Binding;
  inputs : list InputSub;
  next_sub : SubId;                    (* next fresh subscription identity *)
  subscribed : list (SubId * Producer); (* (subscription, producer) per subscribe call *)
  unhandled : list Error               (* errors thrown inside subscriber callbacks *)
}.

(** [new ObservableState()] *)
Definition new_container : Container :=
  mkContainer None [] [] false ∅ [] [] 0 [] [].

(** Field updates of the container record. *)
Definition with_observers (f : list Observer → list Observer) (c : Container) : Container :=
  mkContainer (state_value c) (f (state_observers c)) (state_pushes c)
    (destroy_stopped c) (triggers c) (bindings c) (inputs c) (next_sub c)
    (subscribed c) (unhandled c).

Definition with_triggers (t : gmap string ReplaySubject) (c : Container) : Container :=
  mkContainer (state_value c) (state_observers c) (state_pushes c)
    (destroy_stopped c) t (bindings c) (inputs c) (next_sub c)
    (subscribed c) (unhandled c).

Definition with_bindings (f : list Binding → list Binding) (c : Container) : Container :=
  mkContainer (state_value c) (state_observers c) (state_pushes c)
    (destroy_stopped c) (triggers c) (f (bindings c)) (inputs c) (next_sub c)
    (subscribed c) (unhandled c).

Definition with_inputs (f : list InputSub → list InputSub) (c : Container) : Container :=
  mkContainer (state_value c) (state_observers c) (state_pushes c)
    (destroy_stopped c) (triggers c) (bindings c) (f (inputs c)) (next_sub c)
    (subscribed c) (unhandled c).

Definition report_unhandled (e : Error) (c : Container) : Container :=
  mkContainer (state_value c) (state_observers c) (state_pushes c)
    (destroy_stopped c) (triggers c) (bindings c) (inputs c) (next_sub c)
    (subscribed c) (unhandled c ++ [e]).

(** [source.subscribe(..)] on an external Observable: a fresh subscription
    identity is handed out and the call is recorded. *)
Definition subscribe_producer (source : Producer) (c : Container) : SubId * Container :=
  (next_sub c,
   mkContainer (state_value c) (state_observers c) (state_pushes c)
     (destroy_stopped c) (triggers c) (bindings c) (inputs c) (S (next_sub c))
     (subscribed c ++ [(next_sub c, source)]) (unhandled c)).

(** *** The State Cell *)

(** [state$$.next(state)]: store the value, then notify every subscription
    in subscription order; [syncState] reads [this.value] back. *)
Definition state_next (state : State) (c : Container) : Container :=
  mkContainer (Some state)
    (observer_next (Some state) <$> state_observers c)
    (state_pushes c ++ [state])
    (destroy_stopped c) (triggers c) (bindings c) (inputs c) (next_sub c)
    (subscribed c) (unhandled c).

(** [get snapshot()] *)
Definition snapshot (c : Container) : Result State :=
  match state_value c with
  | None => Throw Uninitialized
  | Some s => Ok s
  end.

(** The loop of [patch]: [newState = { ...newState, [key]: object[key] }]
    for each key of [object], starting from [{ ...this.state$$.value }]. *)
Definition patch_newState (current object : State) : State :=
  foldl (λ newState key, <[key := prop object key]> newState)
        current (Object_keys object).

(** [patch(object)] *)
Definition patch (object : State) (c : Container) : Result Container :=
  match state_value c with
  | None => Throw Uninitialized
  | Some current => Ok (state_next (patch_newState current object) c)
  end.

(** [patch] called from a subscriber callback: an exception does not reach
    any caller of the container, RxJS reports it as unhandled and the
    subscription stays. *)
Definition patch_from_stream (object : State) (c : Container) : Container :=
  match patch object c with
  | Ok c' => c'
  | Throw e => report_unhandled e c
  end.

(** Subscribing a consumer to a selection stream.  [takeUntil] subscribes to
    [destroy$$] first; a Subject that has already completed only sends
    [complete], which [takeUntil] ignores, so the subscription is live in
    either case.  The BehaviorSubject then replays its current value. *)
Definition subscribe (k : StreamKind) (c : Container) : Container :=
  with_observers
    (λ os, os ++ [observer_next (state_value c) (new_observer k)]) c.

(** [initialize(state, inputState$?)] *)
Definition initialize (state : State) (inputState : option Producer)
    (c : Container) : Container :=
  let c1 := state_next state c in
  match inputState with
  | None => c1
  | Some source =>
      let '(sid, c2) := subscribe_producer source c1 in
      with_inputs (λ ins, ins ++ [mkInput source sid false []]) c2
  end.

(** *** Producer bindings *)

(** The notification loop of a subject over the bindings, in subscription
    order: each binding is read when its turn comes, so it sees what the
    turns before it did. *)
Definition for_each_binding (f : nat → Binding → Container → Container)
    (c : Container) : Container :=
  foldl (λ c i, match bindings c !! i with
                | Some b => f i b c
                | None => c
                end)
        c (seq 0 (length (bindings c))).

(** Store the operator state of binding [i]. *)
Definition set_binding (i : nat) (b : Binding) (c : Container) : Container :=
  with_bindings (λ bs, <[i := b]> bs) c.

(** The subscriber callback [value => this.patch({ [typedKey]: value })]
    receiving [value] from the derived stream of binding [i]. *)
Definition binding_deliver (i : nat) (b : Binding) (value : JSValue)
    (c : Container) : Container :=
  set_binding i
    (mkBinding (bind_key b) (bind_source b) (bind_outer b) (bind_triggered b)
       (bind_latest b) (bind_inner b) (bind_closed b) (bind_emitted b ++ [value]))
    (patch_from_stream {[bind_key b := value]} c).

(** [switchMap] receiving [[_, value]] from [combineLatest]: the previous
    inner subscription is dropped and [object[typedKey].pipe(startWith(value))]
    is subscribed: [value] goes to the subscriber at once, then the producer
    is subscribed anew. *)
Definition binding_switch (i : nat) (b : Binding) (value : JSValue)
    (c : Container) : Container :=
  let c1 := binding_deliver i b value c in
  let '(sid, c2) := subscribe_producer (bind_source b) c1 in
  set_binding i
    (mkBinding (bind_key b) (bind_source b) (bind_outer b) (bind_triggered b)
       (bind_latest b) (Some sid) (bind_closed b) (bind_emitted b ++ [value]))
    c2.

(** [combineLatest] emits once both inputs have produced a value. *)
Definition binding_combine (i : nat) (b : Binding) (c : Container) : Container :=
  match bind_triggered b, bind_latest b with
  | true, Some value => binding_switch i b value (set_binding i b c)
  | _, _ => set_binding i b c
  end.

(** [this.triggers[key].next()] reaching binding [i]: a binding of another
    key is not subscribed to this subject, a closed one has unsubscribed. *)
Definition binding_on_trigger (key : string) (i : nat) (b : Binding)
    (c : Container) : Container :=
  if bind_closed b then c
  else if String.eqb (bind_key b) key then
    binding_combine i
      (mkBinding (bind_key b) (bind_source b) (bind_outer b) true
         (bind_latest b) (bind_inner b) (bind_closed b) (bind_emitted b)) c
  else c.

(** The producer delivers [value] to subscription [sid], seen from binding
    [i]: it is the outer subscription held by [combineLatest], the inner one
    held by [switchMap], or none of this binding's. *)
Definition binding_on_producer (sid : SubId) (value : JSValue) (i : nat)
    (b : Binding) (c : Container) : Container :=
  if bind_closed b then c
  else if Nat.eqb (bind_outer b) sid then
    binding_combine i
      (mkBinding (bind_key b) (bind_source b) (bind_outer b) (bind_triggered b)
         (Some value) (bind_inner b) (bind_closed b) (bind_emitted b)) c
  else if bool_decide (bind_inner b = Some sid) then
    binding_deliver i b value c
  else c.

(** Subscribing the derived stream of [key]: [combineLatest] gets the replay
    of the trigger at once and takes its outer subscription on the
    producer. *)
Definition connect_subscribe (key : string) (source : Producer)
    (c : Container) : Container :=
  let replayed := from_option (λ r, bool_decide (rs_buffer r = Some ())) false
                    (triggers c !! key) in
  let '(sid, c2) := subscribe_producer source c in
  with_bindings
    (λ bs, bs ++ [mkBinding key source sid replayed None None false []]) c2.

(** The body of the [forEach] of [connect] for one key.  The test
    [!this.triggers[typedKey]] holds when the registry neither owns nor
    inherits the name: the trigger is then created and fired.  Under an
    inherited name the test reads a built-in object, so nothing is created
    and [combineLatest] is handed that object for the trigger: subscribing
    fails with a TypeError before the producer is reached, and the error
    goes down a stream nobody handles errors of. *)
Definition connect_key (c : Container) (entry : string * Producer) : Container :=
  let '(key, source) := entry in
  match triggers c !! key with
  | Some _ => connect_subscribe key source c
  | None =>
      if inherited key then report_unhandled TypeError c
      else
        connect_subscribe key source
          (with_triggers (<[key := rs_next rs_new]> (triggers c)) c)
  end.

(** [connect(object)]; [object] is given by its entries in the order of
    [Object.keys(object)], each key once. *)
Definition connect (object : list (string * Producer)) (c : Container) : Container :=
  foldl connect_key c object.

(** [trigger(key)].  Under a name the registry only inherits, the test
    [!this.triggers[key]] reads a built-in object and the guard is passed;
    the call of [next] on that object is then a TypeError. *)
Definition trigger (key : string) (c : Container) : Result Container :=
  match triggers c !! key with
  | None =>
      if inherited key then Throw TypeError else Throw NoTriggerRegistered
  | Some r =>
      Ok (for_each_binding (binding_on_trigger key)
            (with_triggers (<[key := rs_next r]> (triggers c)) c))
  end.

(** The subscriber callback [(res) => this.patch(res)] of [initialize]. *)
Definition input_deliver (i : nat) (s : InputSub) (object : State)
    (c : Container) : Container :=
  with_inputs
    (λ ins, <[i := mkInput (in_source s) (in_sub s) (in_closed s)
                     (in_emitted s ++ [object])]> ins)
    (patch_from_stream object c).

(** [inputState$] delivers [object] to subscription [sid]. *)
Definition input_next (sid : SubId) (object : State) (c : Container) : Container :=
  foldl (λ c i,
           match inputs c !! i with
           | Some s =>
               if in_closed s then c
               else if Nat.eqb (in_sub s) sid then input_deliver i s object c
               else c
           | None => c
           end)
        c (seq 0 (length (inputs c))).

(** *** The end of a subscription *)

(** A binding whose derived stream has ended, which unsubscribes it from
    its producer, and the same for the input subscription. *)
Definition binding_close (b : Binding) : Binding :=
  mkBinding (bind_key b) (bind_source b) (bind_outer b) (bind_triggered b)
    (bind_latest b) None true (bind_emitted b).

Definition input_close (s : InputSub) : InputSub :=
  mkInput (in_source s) (in_sub s) true (in_emitted s).

(** Subscription [sid] is one the live binding [b] holds on its producer. *)
Definition binding_holds (sid : SubId) (b : Binding) : bool :=
  negb (bind_closed b)
  && (Nat.eqb (bind_outer b) sid || bool_decide (bind_inner b = Some sid)).

(** The producer sends an error on subscription [sid].  [combineLatest]
    and [switchMap] pass an error of either subscription on, the subscriber
    of [connect] has no error callback: the binding that holds [sid] ends
    and the error is reported as unhandled. *)
Definition producer_error (sid : SubId) (c : Container) : Container :=
  mkContainer (state_value c) (state_observers c) (state_pushes c)
    (destroy_stopped c) (triggers c)
    ((λ b, if binding_holds sid b then binding_close b else b) <$> bindings c)
    (inputs c) (next_sub c) (subscribed c)
    (unhandled c
     ++ omap (λ b, if binding_holds sid b then Some ProducerFailed else None)
          (bindings c)).

Definition input_holds (sid : SubId) (s : InputSub) : bool :=
  negb (in_closed s) && Nat.eqb (in_sub s) sid.

(** The same for [inputState$], whose subscriber in [initialize] has no
    error callback either. *)
Definition input_error (sid : SubId) (c : Container) : Container :=
  mkContainer (state_value c) (state_observers c) (state_pushes c)
    (destroy_stopped c) (triggers c) (bindings c)
    ((λ s, if input_holds sid s then input_close s else s) <$> inputs c)
    (next_sub c) (subscribed c)
    (unhandled c
     ++ omap (λ s, if input_holds sid s then Some ProducerFailed else None)
          (inputs c)).

(** *** Disposal *)

(** [ngOnDestroy()]: [destroy$$.next()] completes every [takeUntil]
    currently subscribed to it, and [destroy$$.complete()] stops the
    subject.  A stopped subject ignores [next], so a second call does
    nothing. *)
Definition ngOnDestroy (c : Container) : Container :=
  if destroy_stopped c then c
  else
    mkContainer (state_value c) (observer_close <$> state_observers c)
      (state_pushes c) true (triggers c) (binding_close <$> bindings c)
      (input_close <$> inputs c) (next_sub c) (subscribed c) (unhandled c).

(** ** Runs *)

(** What can happen to a container: calls of its public members, consumers
    subscribing, and the external streams delivering values.

    [EProducerNext sid value] is the Observable on which the container took
    subscription [sid] handing [value] to that subscription, and
    [EInputNext] the same for [inputState$].  Which subscription gets which
    value is up to the environment: a hot producer serves all its
    subscriptions in turn, a cold one runs each on its own, and a value sent
    during [subscribe] is an event right after it.  A delivery to a
    subscription the container has dropped changes nothing, as after
    [unsubscribe].  [EProducerError] and [EInputError] are the error
    notifications of these streams; a stream that completes just sends
    nothing more.  Consumers only record what they receive; they do not
    call back into the container from their callbacks. *)
Inductive Event :=
  | EInitialize (state : State) (inputState : option Producer)
  | EPatch (object : State)
  | ESubscribe (k : StreamKind)
  | EConnect (object : list (string * Producer))
  | ETrigger (key : string)
  | EProducerNext (sid : SubId) (value : JSValue)
  | EInputNext (sid : SubId) (object : State)
  | EDestroy
  | EProducerError (sid : SubId)
  | EInputError (sid : SubId).

(** A call that throws leaves the container as it was. *)
Definition step (c : Container) (e : Event) : Container :=
  match e with
  | EInitialize state inputState => initialize state inputState c
  | EPatch object =>
      match patch object c with Ok c' => c' | Throw _ => c end
  | ESubscribe k => subscribe k c
  | EConnect object => connect object c
  | ETrigger key =>
      match trigger key c with Ok c' => c' | Throw _ => c end
  | EProducerNext sid value => for_each_binding (binding_on_producer sid value) c
  | EInputNext sid object => input_next sid object c
  | EDestroy => ngOnDestroy c
  | EProducerError sid => producer_error sid c
  | EInputError sid => input_error sid c
  end.

(** The container after the events [es], oldest first. *)
Definition run (es : list Event) (c : Container) : Container := foldl step c es.

(** ** Notions of the specification *)

(** The field-wise merge: a field present in [partial] takes the value given
    there, every other field keeps what [s] has. *)
Definition field_merge (s partial : State) : State :=
  merge (λ old new, match new with Some v => Some v | None => old end) s partial.

(** A field of [keys] differs, under [===], between [previous] and [s]. *)
Definition differs_on (keys : list string) (previous s : State) : Prop :=
  ∃ key, key ∈ keys ∧ strict_eq (prop s key) (prop previous key) = false.

(** The emission rule of the specification: the first state is a change,
    a later one is a change when a selected field differs from the state
    emitted last. *)
Definition counts_as_change (keys : list string) (last_emitted : option State)
    (s : State) : Prop :=
  match last_emitted with
  | None => True
  | Some previous => differs_on keys previous s
  end.

(** The states [vs], pushed in this order after a state with the fields
    [seen], only have fields listed in [keys] and never drop a field that an
    earlier one had. *)
Fixpoint fields_grow (keys : list string) (seen : gset string)
    (vs : list State) : bool :=
  match vs with
  | [] => true
  | s :: vs' =>
      bool_decide (seen ⊆ dom s)
      && forallb (λ key, bool_decide (key ∈ keys)) (Object_keys s)
      && fields_grow keys (dom s) vs'
  end.

(** Recognisers for the calls a run contains. *)
Definition is_initialize (e : Event) : bool :=
  match e with
  | EInitialize _ _ => true
  | _ => false
  end.

Definition connects (key : string) (e : Event) : bool :=
  match e with
  | EConnect object => bool_decide (key ∈ object.*1)
  | _ => false
  end.

(** The binding [b] once [switchMap] has switched it to the fresh inner
    subscription [sid], replaying [value] to the subscriber first. *)
Definition resubscribed (b : Binding) (sid : SubId) (value : JSValue) : Binding :=
  mkBinding (bind_key b) (bind_source b) (bind_outer b) true (Some value)
    (Some sid) (bind_closed b) (bind_emitted b ++ [value]).

(** The values one firing of the trigger of [key] replays: the latest
    value each live binding of [key] has from its outer subscription, in
    subscription order. *)
Definition replayed_values (key : string) (bs : list Binding) : list JSValue :=
  omap (λ b, if negb (bind_closed b) && String.eqb (bind_key b) key
             then bind_latest b else None) bs.

(** ** Notions used in the proofs *)

(** What a selection pipeline can be told: the BehaviorSubject pushes a
    state, or [destroy$$] fires. *)
Inductive Signal :=
  | SigNext (s : State)
  | SigClose.

Definition observer_signal (o : Observer) (g : Signal) : Observer :=
  match g with
  | SigNext s => observer_next (Some s) o
  | SigClose => observer_close o
  end.

Definition signal_states (gs : list Signal) : list State :=
  omap (λ g, match g with SigNext s => Some s | SigClose => None end) gs.

(** Between [c] and [c'] every subscription that existed in [c] was told
    [gs], the subscriptions [extra] were added, and the pushes of [gs] are
    the ones recorded. *)
Definition observers_follow (gs : list Signal) (extra : list Observer)
    (c c' : Container) : Prop :=
  state_observers c'
    = ((λ o, foldl observer_signal o gs) <$> state_observers c) ++ extra
  ∧ state_pushes c' = state_pushes c ++ signal_states gs.

(** The same with no subscription added, as is the case for everything
    but [subscribe]. *)
Definition told (c c' : Container) : Prop := ∃ gs, observers_follow gs [] c c'.

(** [distinctUntilChanged] remembers the state it passed on last. *)
Definition observer_wf (o : Observer) : Prop := obs_prev o = last (obs_log o).

(** A subscription to [state$] and one to [onlySelectWhen(keys)] that have
    behaved alike so far. *)
Definition alike (keys : list string) (seen : gset string)
    (o1 o2 : Observer) : Prop :=
  obs_kind o1 = StateStream ∧ obs_kind o2 = OnlySelectWhen keys
  ∧ obs_prev o1 = obs_prev o2 ∧ obs_log o1 = obs_log o2
  ∧ obs_closed o1 = obs_closed o2
  ∧ ∀ p, obs_prev o1 = Some p → dom p ⊆ seen.

(** The subscriptions a binding holds on its producer. *)
Definition binding_ids (b : Binding) : list SubId :=
  bind_outer b :: option_list (bind_inner b).

(** What a delivery to one binding can do to the rest of the container:
    hand out subscriptions and push states, nothing else. *)
Definition grows (c c' : Container) : Prop :=
  next_sub c ≤ next_sub c'
  ∧ subscribed c `prefix_of` subscribed c'
  ∧ state_pushes c `prefix_of` state_pushes c'
  ∧ (is_Some (state_value c) → is_Some (state_value c'))
  ∧ triggers c' = triggers c
  ∧ inputs c' = inputs c
  ∧ destroy_stopped c' = destroy_stopped c
  ∧ length (bindings c') = length (bindings c).

(** How one turn of a notification loop, leading from [c] to [c'], may
    change the binding [b] whose turn it is: it stays live and bound to the
    same producer, and either keeps its inner subscription or takes the
    next fresh one. *)
Definition turn_of (c c' : Container) (b b' : Binding) : Prop :=
  bind_closed b = false ∧ bind_closed b' = false
  ∧ bind_key b' = bind_key b ∧ bind_source b' = bind_source b
  ∧ bind_outer b' = bind_outer b
  ∧ (bind_triggered b = true → bind_triggered b' = true)
  ∧ bind_emitted b `prefix_of` bind_emitted b'
  ∧ ((bind_inner b' = bind_inner b ∧ next_sub c' = next_sub c
      ∧ subscribed c' = subscribed c)
     ∨ (bind_inner b' = Some (next_sub c) ∧ next_sub c' = S (next_sub c)
        ∧ subscribed c' = subscribed c ++ [(next_sub c, bind_source b)])).

(** The outcome of one turn: nothing at all, or a change of the binding
    whose turn it is and of nothing else among the bindings. *)
Definition turn (i : nat) (b : Binding) (c c' : Container) : Prop :=
  grows c c'
  ∧ (c' = c
     ∨ ∃ b', bindings c' = <[i := b']> (bindings c) ∧ turn_of c c' b b').

(** The subscription identities are in order: every binding has seen its
    trigger, its key is registered, its subscriptions were handed out by
    the container, no two bindings share one, and every registered trigger
    has fired. *)
Definition ids_wf (c : Container) : Prop :=
  (∀ i b, bindings c !! i = Some b →
     bind_triggered b = true ∧ is_Some (triggers c !! bind_key b)
     ∧ ∀ sid, sid ∈ binding_ids b → sid < next_sub c)
  ∧ (∀ i j bi bj sid, bindings c !! i = Some bi → bindings c !! j = Some bj →
       sid ∈ binding_ids bi → sid ∈ binding_ids bj → i = j)
  ∧ (∀ sid source, (sid, source) ∈ subscribed c → sid < next_sub c)
  ∧ (∀ key r, triggers c !! key = Some r → rs_buffer r = Some ()).

(** Subscriptions that [destroy$$] has closed stay as they are. *)
Definition frozen (c c' : Container) : Prop :=
  (∀ i b, bindings c !! i = Some b → bind_closed b = true →
          bindings c' !! i = Some b)
  ∧ (∀ i s, inputs c !! i = Some s → in_closed s = true →
            inputs c' !! i = Some s).

(** ** Further members and notions *)

(** The cell holds the state pushed last. *)
Definition cell_wf (c : Container) : Prop :=
  state_value c = last (state_pushes c).

(** A live pipeline is up to date with the cell value [cur]: it has passed
    on a state, and that state is [cur] itself or one its comparator takes
    for unchanged from [cur]. *)
Definition observer_current (cur : option State) (o : Observer) : Prop :=
  obs_closed o = false →
  ∀ s, cur = Some s →
    ∃ p, obs_prev o = Some p ∧ (p = s ∨ comparator (obs_kind o) p s = true).

(** No two states next to each other in [log] are unchanged for [cmp]. *)
Definition adjacent_changed (cmp : State → State → bool) (log : list State) : Prop :=
  ∀ j s1 s2, log !! j = Some s1 → log !! S j = Some s2 → cmp s1 s2 = false.

(** A field that the stream of kind [k] compares holds NaN in [s]. *)
Definition nan_selected (k : StreamKind) (s : State) : Prop :=
  match k with
  | StateStream => ∃ key, s !! key = Some VNaN
  | OnlySelectWhen keys => ∃ key, key ∈ keys ∧ prop s key = VNaN
  | Select key => prop s key = VNaN
  end.

(** The subscriptions to input streams were handed out by the container,
    no two are the same, and there is none before the first [initialize]. *)
Definition inputs_wf (c : Container) : Prop :=
  NoDup (in_sub <$> inputs c)
  ∧ Forall (λ sid, sid < next_sub c) (in_sub <$> inputs c)
  ∧ (inputs c ≠ [] → is_Some (state_value c)).

(** The entries of [object] under names that a plain object does not
    inherit, in the order of [object]. *)
Definition bindable (object : list (string * Producer)) : list (string * Producer) :=
  filter (λ entry, inherited entry.1 = false) object.

(** The binding [connect] makes for [entry] on the subscription [sid]: it
    has seen its trigger and waits for the first value of its producer. *)
Definition fresh_binding (sid : SubId) (entry : string * Producer) : Binding :=
  mkBinding entry.1 entry.2 sid true None None false [].

(** The trigger registry is in order: it owns no name of
    [Object.prototype], and every trigger it owns has fired. *)
Definition registry_wf (c : Container) : Prop :=
  ∀ key r, triggers c !! key = Some r →
    inherited key = false ∧ rs_buffer r = Some ().

(** * Properties *)

(** ** The scenarios of the specification, run on the model *)

Example patch_then_patch :
  snapshot (run [EInitialize {["a" := VNum 0; "b" := VNum 0; "c" := VNum 0]} None;
                 EPatch {["a" := VNum 1]}; EPatch {["b" := VNum 2]}]
              new_container)
  = Ok {["a" := VNum 1; "b" := VNum 2; "c" := VNum 0]}.
Proof. vm_compute. reflexivity. Qed.

Example select_emits_once_per_value :
  received <$> state_observers
    (run [EInitialize {["a" := VNum 0; "b" := VNum 0]} None;
          ESubscribe (Select "a");
          EPatch {["a" := VNum 1]}; EPatch {["a" := VNum 1]};
          EPatch {["b" := VNum 7]}] new_container)
  = [[EmitValue (VNum 0); EmitValue (VNum 1)]].
Proof. vm_compute. reflexivity. Qed.

Example onlySelectWhen_ignores_other_fields :
  length <$> (received <$> state_observers
    (run [EInitialize {["a" := VNum 0; "b" := VNum 0; "c" := VNum 0]} None;
          ESubscribe (OnlySelectWhen ["a"; "b"]);
          EPatch {["c" := VNum 1]}; EPatch {["a" := VNum 1]};
          EPatch {["c" := VNum 2]}; EPatch {["b" := VNum 1]}] new_container))
  = [3].
Proof. vm_compute. reflexivity. Qed.

(** A hot producer: after the first value the binding holds an outer
    subscription (0) and an inner one; each value reaches the outer one
    first, which switches, so the inner one of the moment gets nothing. *)
Example connect_then_trigger :
  let c := run [EInitialize {["x" := VNum 0]} None; EConnect [("x", 7)];
                EProducerNext 0 (VNum 5); EProducerNext 0 (VNum 6);
                ETrigger "x"] new_container in
  snapshot c = Ok {["x" := VNum 6]}
  ∧ bind_emitted <$> bindings c = [[VNum 5; VNum 6; VNum 6]]
  ∧ subscribed c = [(0, 7); (1, 7); (2, 7); (3, 7)].
Proof. vm_compute. done. Qed.

(** A cold producer that sends 1 and then 2 to every subscription. *)
Example connect_cold_producer :
  bind_emitted <$> bindings
    (run [EInitialize {["x" := VNum 0]} None; EConnect [("x", 7)];
          EProducerNext 0 (VNum 1); EProducerNext 1 (VNum 1);
          EProducerNext 1 (VNum 2); EProducerNext 0 (VNum 2);
          EProducerNext 2 (VNum 1); EProducerNext 2 (VNum 2)] new_container)
  = [[VNum 1; VNum 1; VNum 2; VNum 2; VNum 1; VNum 2]].
Proof. vm_compute. reflexivity. Qed.

Example trigger_without_connect :
  trigger "y" (run [EInitialize {["x" := VNum 0]} None; EConnect [("x", 7)]]
                 new_container)
  = Throw NoTriggerRegistered.
Proof. vm_compute. reflexivity. Qed.

Example snapshot_before_initialize :
  snapshot (run [ESubscribe StateStream; EConnect [("x", 7)];
                 EProducerNext 0 (VNum 1)] new_container)
  = Throw Uninitialized.
Proof. vm_compute. reflexivity. Qed.

(** Reference equality: two distinct objects are a change, whatever they
    hold, and NaN is a change each time. *)
Example strict_eq_is_by_reference :
  strict_eq (VRef 1) (VRef 2) = false ∧ strict_eq (VRef 1) (VRef 1) = true
  ∧ strict_eq VNaN VNaN = false.
Proof. done. Qed.

(** ** The merge performed by [patch] *)

Lemma elem_of_Object_keys {A} (o : gmap string A) (key : string) :
  key ∈ Object_keys o ↔ is_Some (o !! key).
Proof.
  unfold Object_keys. rewrite list_elem_of_fmap. split.
  - intros [[k v] [Hk Hin]]. simpl in Hk. subst k.
    apply elem_of_map_to_list in Hin. by exists v.
  - intros [v Hv]. exists (key, v). split; [done|]. by apply elem_of_map_to_list.
Qed.

Lemma patch_loop_lookup (object : State) (keys : list string) (current : State)
    (key : string) :
  foldl (λ newState k, <[k := prop object k]> newState) current keys !! key
  = if decide (key ∈ keys) then Some (prop object key) else current !! key.
Proof.
  revert current. induction keys as [|k keys IH]; intros current; simpl.
  - destruct (decide (key ∈ [])) as [H|_]; [by apply elem_of_nil in H | done].
  - rewrite IH. destruct (decide (key ∈ keys)) as [Hin|Hnin].
    + rewrite decide_True; [done | by right].
    + destruct (decide (key = k)) as [->|Hne].
      * rewrite decide_True; [| by left]. by rewrite lookup_insert_eq.
      * rewrite decide_False.
        -- by rewrite lookup_insert_ne.
        -- intros [?|?]%elem_of_cons; done.
Qed.

Lemma patch_newState_lookup (current object : State) (key : string) :
  patch_newState current object !! key
  = match object !! key with
    | Some v => Some v
    | None => current !! key
    end.
Proof.
  unfold patch_newState. rewrite patch_loop_lookup.
  destruct (object !! key) as [v|] eqn:Hk.
  - rewrite decide_True; [| apply elem_of_Object_keys; eauto].
    unfold prop. by rewrite Hk.
  - rewrite decide_False; [done|].
    rewrite elem_of_Object_keys, Hk. by intros [? ?].
Qed.

Lemma patch_newState_field_merge (current object : State) :
  patch_newState current object = field_merge current object.
Proof.
  apply map_eq. intros key. rewrite patch_newState_lookup.
  unfold field_merge. rewrite lookup_merge.
  destruct (current !! key), (object !! key); reflexivity.
Qed.

Lemma patch_newState_singleton (current : State) (key : string) (v : JSValue) :
  patch_newState current {[key := v]} = <[key := v]> current.
Proof.
  apply map_eq. intros k. rewrite patch_newState_lookup.
  destruct (decide (key = k)) as [->|Hne].
  - by rewrite lookup_singleton_eq, lookup_insert_eq.
  - by rewrite lookup_singleton_ne, lookup_insert_ne.
Qed.

(** ** Induction over the notification loops *)

Section Loops.
Context {A B : Type} (P : A → Prop) (f : A → B → A).

Lemma foldl_invariant_in (l : list B) (a : A) :
  P a → (∀ a b, b ∈ l → P a → P (f a b)) → P (foldl f a l).
Proof.
  revert a. induction l as [|b l IH]; intros a Ha Hf; simpl; [done|].
  apply IH.
  - apply Hf; [by left | done].
  - intros a' b' Hin. apply Hf. by right.
Qed.

Lemma foldl_invariant (l : list B) (a : A) :
  P a → (∀ a b, P a → P (f a b)) → P (foldl f a l).
Proof. intros Ha Hf. apply foldl_invariant_in; auto. Qed.

End Loops.

Lemma for_each_binding_invariant (P : Container → Prop)
    (f : nat → Binding → Container → Container) (c : Container) :
  P c →
  (∀ i b c, P c → bindings c !! i = Some b → P (f i b c)) →
  P (for_each_binding f c).
Proof.
  intros Hc Hf. unfold for_each_binding. apply foldl_invariant; [done|].
  intros a i Ha. destruct (bindings a !! i) eqn:Hb; eauto.
Qed.

Lemma input_next_invariant (P : Container → Prop) (sid : SubId) (object : State)
    (c : Container) :
  P c →
  (∀ i s c, P c → inputs c !! i = Some s → in_closed s = false →
            P (input_deliver i s object c)) →
  P (input_next sid object c).
Proof.
  intros Hc Hf. unfold input_next. apply foldl_invariant; [done|].
  intros a i Ha. destruct (inputs a !! i) as [s|] eqn:Hs; [|done].
  destruct (in_closed s) eqn:Hcl; [done|].
  destruct (in_sub s =? sid); eauto.
Qed.

Lemma run_snoc (es : list Event) (e : Event) (c : Container) :
  run (es ++ [e]) c = step (run es c) e.
Proof. unfold run. by rewrite foldl_app. Qed.

Lemma run_app (es es' : list Event) (c : Container) :
  run (es ++ es') c = run es' (run es c).
Proof. unfold run. by rewrite foldl_app. Qed.

(** ** What the selection subscriptions are told *)

Lemma observers_follow_refl (c : Container) : observers_follow [] [] c c.
Proof.
  split; simpl.
  - by rewrite list_fmap_id, app_nil_r.
  - by rewrite app_nil_r.
Qed.

Lemma signal_states_app (gs gs' : list Signal) :
  signal_states (gs ++ gs') = signal_states gs ++ signal_states gs'.
Proof. unfold signal_states. apply omap_app. Qed.

Lemma observers_follow_trans gs1 ex1 gs2 ex2 (c c1 c2 : Container) :
  observers_follow gs1 ex1 c c1 →
  observers_follow gs2 ex2 c1 c2 →
  observers_follow (gs1 ++ gs2)
    (((λ o, foldl observer_signal o gs2) <$> ex1) ++ ex2) c c2.
Proof.
  intros [Ho1 Hp1] [Ho2 Hp2]. split.
  - rewrite Ho2, Ho1, fmap_app, <- list_fmap_compose, <- app_assoc.
    f_equal. apply list_fmap_ext. intros i o _. simpl. by rewrite foldl_app.
  - by rewrite Hp2, Hp1, signal_states_app, app_assoc.
Qed.

Lemma told_refl (c : Container) : told c c.
Proof. exists []. apply observers_follow_refl. Qed.

Lemma told_trans (c c1 c2 : Container) : told c c1 → told c1 c2 → told c c2.
Proof.
  intros [gs1 H1] [gs2 H2]. exists (gs1 ++ gs2).
  exact (observers_follow_trans _ _ _ _ _ _ _ H1 H2).
Qed.

Lemma told_same (c c' : Container) :
  state_observers c' = state_observers c →
  state_pushes c' = state_pushes c →
  told c c'.
Proof.
  intros Ho Hp. exists []. split; simpl.
  - by rewrite Ho, list_fmap_id, app_nil_r.
  - by rewrite Hp, app_nil_r.
Qed.

Lemma told_state_next (s : State) (c : Container) : told c (state_next s c).
Proof.
  exists [SigNext s]. split; simpl; [by rewrite app_nil_r | done].
Qed.

Lemma told_patch_from_stream (object : State) (c : Container) :
  told c (patch_from_stream object c).
Proof.
  unfold patch_from_stream, patch. destruct (state_value c).
  - apply told_state_next.
  - by apply told_same.
Qed.

Lemma told_binding_deliver i b value (c : Container) :
  told c (binding_deliver i b value c).
Proof.
  eapply told_trans; [apply (told_patch_from_stream {[bind_key b := value]})|].
  by apply told_same.
Qed.

Lemma told_binding_combine i b (c : Container) : told c (binding_combine i b c).
Proof.
  unfold binding_combine.
  destruct (bind_triggered b), (bind_latest b) as [value|];
    try by apply told_same.
  eapply told_trans; [by apply (told_same c (set_binding i b c))|].
  unfold binding_switch.
  eapply told_trans; [apply told_binding_deliver|]. by apply told_same.
Qed.

Lemma told_binding_on_trigger key i b (c : Container) :
  told c (binding_on_trigger key i b c).
Proof.
  unfold binding_on_trigger. destruct (bind_closed b); [apply told_refl|].
  destruct (String.eqb _ _); [apply told_binding_combine | apply told_refl].
Qed.

Lemma told_binding_on_producer sid value i b (c : Container) :
  told c (binding_on_producer sid value i b c).
Proof.
  unfold binding_on_producer. destruct (bind_closed b); [apply told_refl|].
  destruct (_ =? _); [apply told_binding_combine|].
  case_bool_decide; [apply told_binding_deliver | apply told_refl].
Qed.

Lemma told_connect object (c : Container) : told c (connect object c).
Proof.
  unfold connect. apply (foldl_invariant (told c)); [apply told_refl|].
  intros a [key source] Ha. eapply told_trans; [exact Ha|].
  unfold connect_key, connect_subscribe.
  destruct (triggers a !! key); [|destruct (inherited key)]; by apply told_same.
Qed.

Lemma told_initialize state inputState (c : Container) :
  told c (initialize state inputState c).
Proof.
  unfold initialize. destruct inputState as [source|].
  - eapply told_trans; [apply (told_state_next state)|]. by apply told_same.
  - apply told_state_next.
Qed.

Lemma told_ngOnDestroy (c : Container) : told c (ngOnDestroy c).
Proof.
  unfold ngOnDestroy. destruct (destroy_stopped c); [apply told_refl|].
  exists [SigClose]. split; simpl; by rewrite app_nil_r.
Qed.

Lemma step_told (c : Container) (e : Event) :
  (∀ k, e ≠ ESubscribe k) → told c (step c e).
Proof.
  intros Hns.
  destruct e as [state src|object|k|object|key|sid value|sid object| |sid|sid]; simpl.
  - apply told_initialize.
  - unfold patch. destruct (state_value c);
      [apply told_state_next | apply told_refl].
  - by destruct (Hns k).
  - apply told_connect.
  - unfold trigger. destruct (triggers c !! key) as [r|];
      [|destruct (inherited key); apply told_refl].
    eapply told_trans;
      [by apply (told_same c (with_triggers (<[key:=rs_next r]> (triggers c)) c))|].
    apply (for_each_binding_invariant (told _)); [apply told_refl|].
    intros i b a Ha _. eapply told_trans; [exact Ha|].
    apply told_binding_on_trigger.
  - apply (for_each_binding_invariant (told c)); [apply told_refl|].
    intros i b a Ha _. eapply told_trans; [exact Ha|].
    apply told_binding_on_producer.
  - apply (input_next_invariant (told c)); [apply told_refl|].
    intros i s a Ha _ _. eapply told_trans; [exact Ha|].
    eapply told_trans; [apply (told_patch_from_stream object)|].
    by apply told_same.
  - apply told_ngOnDestroy.
  - by apply told_same.
  - by apply told_same.
Qed.

Lemma step_observers_follow (c : Container) (e : Event) :
  ∃ gs extra, observers_follow gs extra c (step c e).
Proof.
  assert ((∃ k, e = ESubscribe k) ∨ (∀ k, e ≠ ESubscribe k)) as [[k ->]|Hns]
    by (destruct e; eauto).
  2: { destruct (step_told c e Hns) as [gs H]. by exists gs, []. }
  exists [], [observer_next (state_value c) (new_observer k)].
  split; simpl; [by rewrite list_fmap_id | by rewrite app_nil_r].
Qed.

Lemma run_observers_follow (es : list Event) (c : Container) :
  ∃ gs extra, observers_follow gs extra c (run es c).
Proof.
  induction es as [|e es IH] using rev_ind.
  - exists [], []. apply observers_follow_refl.
  - rewrite run_snoc. destruct IH as (gs1 & ex1 & H1).
    destruct (step_observers_follow (run es c) e) as (gs2 & ex2 & H2).
    eexists _, _. exact (observers_follow_trans _ _ _ _ _ _ _ H1 H2).
Qed.

(** ** One selection subscription *)

Lemma observer_next_null (o : Observer) : observer_next None o = o.
Proof. unfold observer_next. by destruct (obs_closed o). Qed.

Lemma observer_next_closed v (o : Observer) :
  obs_closed o = true → observer_next v o = o.
Proof. intros H. unfold observer_next. by rewrite H. Qed.

Lemma observer_next_first s (o : Observer) :
  obs_closed o = false → obs_prev o = None →
  observer_next (Some s) o
  = mkObserver (obs_kind o) (Some s) false (obs_log o ++ [s]).
Proof.
  intros Hc Hp. unfold observer_next, distinctUntilChanged.
  cbn [foldl filterAndCastToT]. by rewrite Hc, Hp.
Qed.

Lemma observer_next_same s p (o : Observer) :
  obs_closed o = false → obs_prev o = Some p →
  comparator (obs_kind o) p s = true →
  observer_next (Some s) o
  = mkObserver (obs_kind o) (Some p) false (obs_log o).
Proof.
  intros Hc Hp Hcmp. unfold observer_next, distinctUntilChanged.
  cbn [foldl filterAndCastToT]. by rewrite Hc, Hp, Hcmp, app_nil_r.
Qed.

Lemma observer_next_changed s p (o : Observer) :
  obs_closed o = false → obs_prev o = Some p →
  comparator (obs_kind o) p s = false →
  observer_next (Some s) o
  = mkObserver (obs_kind o) (Some s) false (obs_log o ++ [s]).
Proof.
  intros Hc Hp Hcmp. unfold observer_next, distinctUntilChanged.
  cbn [foldl filterAndCastToT]. by rewrite Hc, Hp, Hcmp.
Qed.

(** The three ways a pushed state can fare. *)
Lemma observer_next_cases s (o : Observer) :
  (obs_closed o = true ∧ observer_next (Some s) o = o)
  ∨ (obs_closed o = false
     ∧ (obs_prev o = None
        ∨ ∃ p, obs_prev o = Some p ∧ comparator (obs_kind o) p s = false)
     ∧ observer_next (Some s) o
       = mkObserver (obs_kind o) (Some s) false (obs_log o ++ [s]))
  ∨ (obs_closed o = false
     ∧ ∃ p, obs_prev o = Some p ∧ comparator (obs_kind o) p s = true
       ∧ observer_next (Some s) o
         = mkObserver (obs_kind o) (Some p) false (obs_log o)).
Proof.
  destruct (obs_closed o) eqn:Hc.
  { left. split; [done|]. by apply observer_next_closed. }
  right. destruct (obs_prev o) as [p|] eqn:Hp.
  - destruct (comparator (obs_kind o) p s) eqn:Hcmp.
    + right. split; [done|]. exists p. eauto using observer_next_same.
    + left. split; [done|]. split; [eauto|]. by eapply observer_next_changed.
  - left. split; [done|]. split; [eauto|]. by apply observer_next_first.
Qed.

Lemma observer_close_closed (o : Observer) :
  obs_closed o = true → observer_close o = o.
Proof. intros H. destruct o; simpl in *. by subst. Qed.

Lemma observer_signal_closed (o : Observer) (g : Signal) :
  obs_closed o = true → observer_signal o g = o.
Proof.
  intros H. destruct g; simpl;
    [by apply observer_next_closed | by apply observer_close_closed].
Qed.

Lemma observer_signals_closed (o : Observer) (gs : list Signal) :
  obs_closed o = true → foldl observer_signal o gs = o.
Proof.
  induction gs as [|g gs IH]; intros H; simpl; [done|].
  rewrite observer_signal_closed by done. auto.
Qed.

Lemma observer_signal_kind (o : Observer) (g : Signal) :
  obs_kind (observer_signal o g) = obs_kind o.
Proof.
  destruct g as [s|]; simpl; [|done].
  destruct (observer_next_cases s o) as [[_ ->]|[(_ & _ & ->)|(_ & p & _ & _ & ->)]];
    done.
Qed.

Lemma observer_signal_wf (o : Observer) (g : Signal) :
  observer_wf o → observer_wf (observer_signal o g).
Proof.
  unfold observer_wf. intros Hwf. destruct g as [s|]; simpl; [|done].
  destruct (observer_next_cases s o) as [[_ ->]|[(_ & _ & ->)|(_ & p & Hp & _ & ->)]];
    simpl; [done | by rewrite last_snoc | by rewrite <- Hp].
Qed.

Lemma observer_signals_wf (o : Observer) (gs : list Signal) :
  observer_wf o → observer_wf (foldl observer_signal o gs).
Proof.
  revert o. induction gs as [|g gs IH]; intros o H; simpl; [done|].
  by apply IH, observer_signal_wf.
Qed.

Lemma observer_subscribed_wf (v : option State) (k : StreamKind) :
  observer_wf (observer_next v (new_observer k)).
Proof.
  destruct v as [s|].
  - apply (observer_signal_wf _ (SigNext s)). reflexivity.
  - rewrite observer_next_null. reflexivity.
Qed.

(** In every reachable container the pipelines remember what they emitted
    last. *)
Lemma step_observers_wf (c : Container) (e : Event) :
  Forall observer_wf (state_observers c) →
  Forall observer_wf (state_observers (step c e)).
Proof.
  intros Hwf.
  assert (∀ gs, Forall observer_wf
            ((λ o, foldl observer_signal o gs) <$> state_observers c)) as Hold.
  { intros gs. apply Forall_fmap. eapply Forall_impl; [exact Hwf|].
    intros o Ho'. simpl. by apply observer_signals_wf. }
  assert ((∃ k, e = ESubscribe k) ∨ (∀ k, e ≠ ESubscribe k)) as [[k ->]|Hns]
    by (destruct e; eauto).
  - simpl. unfold subscribe. simpl. apply Forall_app. split; [done|].
    apply Forall_singleton, observer_subscribed_wf.
  - destruct (step_told c e Hns) as [gs [-> _]]. rewrite app_nil_r. apply Hold.
Qed.

Lemma run_observers_wf (es : list Event) :
  Forall observer_wf (state_observers (run es new_container)).
Proof.
  induction es as [|e es IH] using rev_ind; [constructor|].
  rewrite run_snoc. by apply step_observers_wf.
Qed.

(** ** The comparators *)

Lemma keys_comparator_true (keys : list string) (previous s : State) :
  keys_comparator keys previous s = true
  ↔ ∀ key, key ∈ keys → strict_eq (prop s key) (prop previous key) = true.
Proof.
  unfold keys_comparator. rewrite forallb_forall. split.
  - intros H key Hin. apply H. by apply list_elem_of_In.
  - intros H key Hin. apply H. by apply list_elem_of_In.
Qed.

Lemma keys_comparator_false (keys : list string) (previous s : State) :
  keys_comparator keys previous s = false ↔ differs_on keys previous s.
Proof.
  unfold keys_comparator, differs_on. induction keys as [|k keys IH]; simpl.
  - split; [done|]. intros (key & Hin & _). by apply elem_of_nil in Hin.
  - rewrite andb_false_iff, IH. split.
    + intros [H|(key & Hin & H)]; [exists k | exists key];
        (split; [|done]); [by left | by right].
    + intros (key & [->|Hin]%elem_of_cons & H); [by left|].
      right. by exists key.
Qed.

Lemma state_comparator_true (previous s : State) :
  state_comparator previous s = true
  ↔ ∀ key, key ∈ dom s → strict_eq (prop s key) (prop previous key) = true.
Proof.
  unfold state_comparator. rewrite forallb_forall. split.
  - intros H key Hin. apply H, list_elem_of_In, elem_of_Object_keys.
    by apply elem_of_dom.
  - intros H key Hin. apply H, elem_of_dom, elem_of_Object_keys.
    by apply list_elem_of_In.
Qed.

Lemma prop_absent (s : State) (key : string) :
  key ∉ dom s → prop s key = if inherited key then VBuiltin key else VUndefined.
Proof.
  intros H. unfold prop. apply not_elem_of_dom in H. by rewrite H.
Qed.

(** Where no field was dropped and every field is listed, the two
    comparators agree. *)
Lemma comparators_agree (keys : list string) (previous s : State) :
  dom previous ⊆ dom s → (∀ key, key ∈ dom s → key ∈ keys) →
  state_comparator previous s = keys_comparator keys previous s.
Proof.
  intros Hgrow Hin. apply eq_true_iff_eq.
  rewrite state_comparator_true, keys_comparator_true. split.
  - intros H key Hk. destruct (decide (key ∈ dom s)) as [Hd|Hd]; [by apply H|].
    rewrite !prop_absent; [| set_solver | done].
    destruct (inherited key); simpl; [apply String.eqb_refl | done].
  - intros H key Hk. by apply H, Hin.
Qed.

(** ** The Patch Engine *)

Lemma initialize_value state inputState (c : Container) :
  state_value (initialize state inputState c) = Some state.
Proof. unfold initialize. by destruct inputState. Qed.

Lemma initialize_observers state inputState (c : Container) :
  state_observers (initialize state inputState c)
  = observer_next (Some state) <$> state_observers c.
Proof. unfold initialize. by destruct inputState. Qed.

Lemma run_patches_value (ps : list State) (c : Container) (s : State) :
  state_value c = Some s →
  state_value (run (EPatch <$> ps) c) = Some (foldl field_merge s ps).
Proof.
  revert c s. induction ps as [|p ps IH]; intros c s Hs; simpl; [done|].
  apply IH. unfold patch. rewrite Hs. simpl.
  by rewrite patch_newState_field_merge.
Qed.

(** C1: after [initialize(s0)], whatever the container was before, and any
    sequence of [patch] calls, [snapshot] returns the left fold of the
    field-wise merge over [s0] and the patch arguments in call order. *)
Theorem snapshot_is_fold_of_patches (c : Container) (s0 : State)
    (inputState : option Producer) (ps : list State) :
  snapshot (run (EPatch <$> ps) (initialize s0 inputState c))
  = Ok (foldl field_merge s0 ps).
Proof.
  unfold snapshot.
  by rewrite (run_patches_value ps _ s0) by apply initialize_value.
Qed.

(** C2: on an initialised container one [patch] call pushes exactly one
    state into the cell, the complete field-wise merge, and what any
    subscription receives during the call is nothing or that merged state:
    no partly merged state is ever seen. *)
Theorem patch_pushes_once (c : Container) (current object : State) :
  state_value c = Some current →
  ∃ c', patch object c = Ok c'
    ∧ state_value c' = Some (field_merge current object)
    ∧ state_pushes c' = state_pushes c ++ [field_merge current object]
    ∧ length (state_observers c') = length (state_observers c)
    ∧ ∀ i o, state_observers c !! i = Some o →
        ∃ o', state_observers c' !! i = Some o'
          ∧ (received o' = received o
             ∨ received o'
               = received o ++ [emission (obs_kind o) (field_merge current object)]).
Proof.
  intros Hs. unfold patch. rewrite Hs, patch_newState_field_merge.
  eexists. split; [done|]. simpl. split; [done|]. split; [done|].
  split; [by rewrite length_fmap|].
  intros i o Ho. rewrite list_lookup_fmap, Ho. simpl.
  eexists. split; [done|].
  destruct (observer_next_cases (field_merge current object) o)
    as [[_ ->]|[(_ & _ & ->)|(_ & p & _ & _ & ->)]].
  - by left.
  - right. unfold received. simpl. by rewrite fmap_app.
  - by left.
Qed.

Lemma patch_pushes_once_witness :
  ∃ c', patch {["a" := VNum 1; "b" := VNum 2]}
          (subscribe (Select "a")
             (initialize {["a" := VNum 0; "c" := VNum 0]} None new_container))
        = Ok c'
    ∧ state_pushes c'
      = [{["a" := VNum 0; "c" := VNum 0]};
         field_merge {["a" := VNum 0; "c" := VNum 0]}
           {["a" := VNum 1; "b" := VNum 2]}].
Proof.
  destruct (patch_pushes_once
              (subscribe (Select "a")
                 (initialize {["a" := VNum 0; "c" := VNum 0]} None new_container))
              {["a" := VNum 0; "c" := VNum 0]}
              {["a" := VNum 1; "b" := VNum 2]} eq_refl)
    as (c' & Hp & _ & Hpush & _).
  exists c'. split; [exact Hp | exact Hpush].
Defined.

(** C7: a field whose key is absent from the argument of [patch] is the
    same in the state after the call as before it, value and presence. *)
Theorem patch_preserves_other_fields (c : Container) (current object : State)
    (key : string) :
  state_value c = Some current →
  object !! key = None →
  ∃ c' s', patch object c = Ok c' ∧ snapshot c' = Ok s'
    ∧ s' !! key = current !! key ∧ prop s' key = prop current key.
Proof.
  intros Hs Hk. unfold patch, snapshot. rewrite Hs. simpl.
  eexists _, _. split; [done|]. split; [done|].
  assert (patch_newState current object !! key = current !! key) as H.
  { by rewrite patch_newState_lookup, Hk. }
  split; [done|]. unfold prop. by rewrite H.
Qed.

Lemma patch_preserves_other_fields_witness :
  ∃ c' s', patch {["a" := VNum 1]}
             (initialize {["a" := VNum 0; "b" := VRef 5]} None new_container)
           = Ok c'
    ∧ snapshot c' = Ok s'
    ∧ s' !! "b" = Some (VRef 5).
Proof.
  assert (({["a" := VNum 1]} : State) !! "b" = None) as Habsent
    by (vm_compute; reflexivity).
  destruct (patch_preserves_other_fields
              (initialize {["a" := VNum 0; "b" := VRef 5]} None new_container)
              {["a" := VNum 0; "b" := VRef 5]} {["a" := VNum 1]} "b"
              eq_refl Habsent)
    as (c' & s' & Hp & Hsnap & Hk & _).
  exists c', s'. split; [exact Hp|]. split; [exact Hsnap|].
  rewrite Hk. vm_compute. reflexivity.
Defined.

(** ** The Selection Engine *)

Lemma state_next_observers s (c : Container) (i : nat) :
  state_observers (state_next s c) !! i
  = observer_next (Some s) <$> state_observers c !! i.
Proof. simpl. by rewrite list_lookup_fmap. Qed.

(** C3: a live subscription to [onlySelectWhen(keys)], [keys] not empty, in
    any reachable container, receives a state pushed into the cell exactly
    when that state counts as a change: it is the first one to reach the
    subscription, or one of [keys] differs under [===] from the state the
    subscription received last.  What it receives is the full state. *)
Theorem onlySelectWhen_emits_exactly_on_change (es : list Event)
    (keys : list string) (i : nat) (o : Observer) (s : State) :
  keys ≠ [] →
  state_observers (run es new_container) !! i = Some o →
  obs_kind o = OnlySelectWhen keys →
  obs_closed o = false →
  ∃ o', state_observers (state_next s (run es new_container)) !! i = Some o'
    ∧ (counts_as_change keys (last (obs_log o)) s →
       received o' = received o ++ [EmitState s])
    ∧ (¬ counts_as_change keys (last (obs_log o)) s →
       received o' = received o).
Proof.
  intros _ Ho Hkind Hlive. rewrite state_next_observers, Ho. simpl.
  eexists. split; [done|].
  assert (observer_wf o) as Hwf.
  { eapply Forall_lookup_1; [apply run_observers_wf | exact Ho]. }
  unfold observer_wf in Hwf. rewrite <- Hwf.
  destruct (observer_next_cases s o)
    as [[Hc _]|[(_ & Hwhy & ->)|(_ & p & Hp & Hcmp & ->)]].
  - congruence.
  - split.
    + intros _. unfold received. simpl. by rewrite fmap_app, Hkind.
    + intros Hno. destruct Hno. destruct Hwhy as [->|(p & -> & Hcmp)]; [done|].
      simpl. rewrite Hkind in Hcmp. by apply keys_comparator_false.
  - split; [|done]. rewrite Hp. simpl. intros Hd.
    apply keys_comparator_false in Hd. rewrite Hkind in Hcmp. simpl in Hcmp.
    congruence.
Qed.

Lemma onlySelectWhen_emits_exactly_on_change_witness :
  ∃ o', state_observers
          (state_next {["a" := VRef 2; "b" := VNum 0]}
             (run [EInitialize {["a" := VRef 1; "b" := VNum 0]} None;
                   ESubscribe (OnlySelectWhen ["a"])] new_container)) !! 0
        = Some o'
    ∧ length (received o') = 2.
Proof.
  destruct (onlySelectWhen_emits_exactly_on_change
              [EInitialize {["a" := VRef 1; "b" := VNum 0]} None;
               ESubscribe (OnlySelectWhen ["a"])]
              ["a"] 0
              (mkObserver (OnlySelectWhen ["a"])
                 (Some {["a" := VRef 1; "b" := VNum 0]}) false
                 [{["a" := VRef 1; "b" := VNum 0]}])
              {["a" := VRef 2; "b" := VNum 0]})
    as (o' & Ho' & Hemit & _).
  - discriminate.
  - reflexivity.
  - reflexivity.
  - reflexivity.
  - exists o'. split; [exact Ho'|]. rewrite Hemit.
    + reflexivity.
    + exists "a". split; [by left | by vm_compute].
Defined.

Lemma observer_signals_no_keys (p : State) (o : Observer) (gs : list Signal) :
  obs_kind o = OnlySelectWhen [] → obs_prev o = Some p →
  obs_log (foldl observer_signal o gs) = obs_log o
  ∧ obs_kind (foldl observer_signal o gs) = obs_kind o.
Proof.
  revert o. induction gs as [|g gs IH]; intros o Hk Hp; simpl; [done|].
  assert (obs_kind (observer_signal o g) = OnlySelectWhen []
          ∧ obs_prev (observer_signal o g) = Some p
          ∧ obs_log (observer_signal o g) = obs_log o) as (Hk' & Hp' & Hl').
  { destruct g as [s|]; simpl; [|done].
    destruct (observer_next_cases s o)
      as [[_ ->]|[(_ & [Hn|(q & _ & Hcmp)] & _)|(_ & q & Hq & _ & ->)]];
      [done | congruence | by rewrite Hk in Hcmp |].
    simpl. split; [done|]. split; congruence. }
  destruct (IH _ Hk' Hp') as [-> ->]. split; congruence.
Qed.

(** C10: a subscription to [onlySelectWhen([])] receives the first state
    that reaches it, the current one when the cell is already initialised
    and otherwise the one of the next [initialize], and nothing more
    whatever happens to the container afterwards. *)
Theorem onlySelectWhen_no_keys_emits_once (c : Container) (s : State)
    (inputState : option Producer) (es : list Event) :
  let c0 := subscribe (OnlySelectWhen []) c in
  let c1 := match state_value c with
            | Some _ => c0
            | None => initialize s inputState c0
            end in
  ∃ o, state_observers (run es c1) !! length (state_observers c) = Some o
    ∧ received o = [EmitState (default s (state_value c))].
Proof.
  intros c0 c1.
  set (first := default s (state_value c)).
  assert (state_observers c1 !! length (state_observers c)
          = Some (mkObserver (OnlySelectWhen []) (Some first) false [first]))
    as Hstart.
  { subst c1 c0 first. destruct (state_value c) as [cur|] eqn:Hv.
    - unfold subscribe. simpl. rewrite Hv.
      rewrite lookup_app_r, Nat.sub_diag by lia. done.
    - rewrite initialize_observers, list_lookup_fmap. unfold subscribe. simpl.
      rewrite Hv, lookup_app_r, Nat.sub_diag by lia. done. }
  destruct (run_observers_follow es c1) as (gs & extra & Ho & _).
  rewrite Ho, lookup_app_l.
  2: { rewrite length_fmap. by eapply lookup_lt_Some. }
  rewrite list_lookup_fmap, Hstart. simpl. eexists. split; [done|].
  destruct (observer_signals_no_keys first
              (mkObserver (OnlySelectWhen []) (Some first) false [first]) gs
              eq_refl eq_refl) as [Hlog Hkind].
  unfold received. by rewrite Hlog, Hkind.
Qed.

Lemma alike_signal (keys : list string) (seen : gset string)
    (o1 o2 : Observer) (s : State) :
  alike keys seen o1 o2 →
  seen ⊆ dom s → (∀ key, key ∈ dom s → key ∈ keys) →
  alike keys (dom s) (observer_next (Some s) o1) (observer_next (Some s) o2).
Proof.
  intros (Hk1 & Hk2 & Hprev & Hlog & Hcl & Hdom) Hseen Hkeys.
  unfold alike.
  destruct (obs_closed o1) eqn:Hc1.
  { rewrite !observer_next_closed by congruence.
    split_and!; try done; [congruence|].
    intros p Hp. specialize (Hdom p Hp). set_solver. }
  destruct (obs_prev o1) as [p|] eqn:Hp1.
  - assert (comparator (obs_kind o1) p s = comparator (obs_kind o2) p s) as Hcmp.
    { rewrite Hk1, Hk2. simpl. apply comparators_agree; [|done].
      specialize (Hdom p eq_refl). set_solver. }
    destruct (comparator (obs_kind o1) p s) eqn:Hcmp1.
    + rewrite (observer_next_same s p o1), (observer_next_same s p o2)
        by congruence.
      simpl. split_and!; try done. intros q [= <-].
      specialize (Hdom p eq_refl). set_solver.
    + rewrite (observer_next_changed s p o1), (observer_next_changed s p o2)
        by congruence.
      simpl. split_and!; try done; [congruence|]. by intros q [= <-].
  - rewrite (observer_next_first s o1), (observer_next_first s o2)
      by congruence.
    simpl. split_and!; try done; [congruence|]. by intros q [= <-].
Qed.

Lemma alike_signals (keys : list string) (gs : list Signal)
    (seen : gset string) (o1 o2 : Observer) :
  alike keys seen o1 o2 →
  fields_grow keys seen (signal_states gs) = true →
  ∃ seen', alike keys seen'
             (foldl observer_signal o1 gs) (foldl observer_signal o2 gs).
Proof.
  revert seen o1 o2. induction gs as [|g gs IH]; intros seen o1 o2 Ha Hg.
  - by exists seen.
  - destruct g as [s|]; simpl in *.
    + apply andb_true_iff in Hg as [Hg Hrest].
      apply andb_true_iff in Hg as [Hseen Hkeys].
      apply bool_decide_eq_true in Hseen.
      rewrite forallb_forall in Hkeys.
      eapply IH; [|exact Hrest].
      apply (alike_signal keys seen); [done | done |].
      intros key Hin. eapply bool_decide_eq_true, Hkeys, list_elem_of_In.
      by apply elem_of_Object_keys, elem_of_dom.
    + eapply (IH seen); [|exact Hg].
      destruct Ha as (? & ? & ? & ? & ? & ?). by repeat split.
Qed.

(** X16: a subscription to [state$] and one to [onlySelectWhen(keys)]
    made at the same moment receive the same emissions in the same order,
    provided every state that reaches them has only fields listed in [keys]
    and no such state lacks a field that an earlier one had. *)
Theorem state_stream_is_onlySelectWhen_all_keys (c : Container)
    (keys : list string) (es : list Event) :
  let c0 := subscribe (OnlySelectWhen keys) (subscribe StateStream c) in
  let n := length (state_observers c) in
  fields_grow keys ∅
    (option_list (state_value c)
     ++ drop (length (state_pushes c)) (state_pushes (run es c0))) = true →
  ∃ o1 o2,
    state_observers (run es c0) !! n = Some o1
    ∧ state_observers (run es c0) !! S n = Some o2
    ∧ obs_kind o1 = StateStream
    ∧ obs_kind o2 = OnlySelectWhen keys
    ∧ received o1 = received o2.
Proof.
  intros c0 n Hgrow.
  destruct (run_observers_follow es c0) as (gs & extra & Ho & Hp).
  assert (state_pushes c0 = state_pushes c) as Hp0 by done.
  rewrite Hp, Hp0, drop_app_length in Hgrow.
  assert (state_observers c0
          = state_observers c
            ++ [observer_next (state_value c) (new_observer StateStream);
                observer_next (state_value c) (new_observer (OnlySelectWhen keys))])
    as Hobs.
  { subst c0. unfold subscribe. simpl. by rewrite <- app_assoc. }
  set (gs' := match state_value c with
              | Some v => SigNext v :: gs
              | None => gs
              end).
  assert (fields_grow keys ∅ (signal_states gs') = true) as Hgrow'.
  { subst gs'. by destruct (state_value c). }
  assert (∀ k, foldl observer_signal (observer_next (state_value c) (new_observer k)) gs
               = foldl observer_signal (new_observer k) gs') as Hfold.
  { intros k. subst gs'. destruct (state_value c); [done|].
    by rewrite observer_next_null. }
  destruct (alike_signals keys gs' ∅
              (new_observer StateStream) (new_observer (OnlySelectWhen keys)))
    as (seen & Hk1 & Hk2 & _ & Hlog & _); [by repeat split | done |].
  exists (foldl observer_signal (new_observer StateStream) gs'),
         (foldl observer_signal (new_observer (OnlySelectWhen keys)) gs').
  rewrite Ho, Hobs, fmap_app. simpl. rewrite !Hfold, <- app_assoc.
  assert (length ((λ o, foldl observer_signal o gs) <$> state_observers c) = n)
    as Hlen by (by rewrite length_fmap).
  split; [by rewrite lookup_app_r, Hlen, Nat.sub_diag by lia|].
  split.
  { rewrite lookup_app_r by lia. rewrite Hlen.
    by replace (S n - n) with 1 by lia. }
  split; [done|]. split; [done|].
  unfold received. by rewrite Hk1, Hk2, Hlog.
Qed.

Lemma state_stream_is_onlySelectWhen_all_keys_witness :
  ∃ o1 o2,
    state_observers
      (run [EPatch {["b" := VNum 2]}; EPatch {["b" := VNum 2]}]
         (subscribe (OnlySelectWhen ["a"; "b"])
            (subscribe StateStream
               (initialize {["a" := VNum 1]} None new_container)))) !! 0
    = Some o1
    ∧ state_observers
        (run [EPatch {["b" := VNum 2]}; EPatch {["b" := VNum 2]}]
           (subscribe (OnlySelectWhen ["a"; "b"])
              (subscribe StateStream
                 (initialize {["a" := VNum 1]} None new_container)))) !! 1
      = Some o2
    ∧ received o1 = received o2.
Proof.
  destruct (state_stream_is_onlySelectWhen_all_keys
              (initialize {["a" := VNum 1]} None new_container)
              ["a"; "b"]
              [EPatch {["b" := VNum 2]}; EPatch {["b" := VNum 2]}])
    as (o1 & o2 & H1 & H2 & _ & _ & Hsame).
  - vm_compute. reflexivity.
  - exists o1, o2. split; [exact H1|]. split; [exact H2 | exact Hsame].
Defined.

(** C6: the code departs from the claim.  The comparator of [state$]
    walks [Object.keys(current)] only, so a field that the new state no
    longer has is never compared: with an optional field [b], re-seeding the
    cell with a state that lacks [b] changes the state, yet [state$], which
    by its doc comment notifies on every update, delivers nothing, while
    [onlySelectWhen(["a"; "b"])] delivers the new state. *)
Lemma state_stream_misses_dropped_field :
  let c := run [EInitialize {["a" := VNum 1; "b" := VNum 2]} None;
                EInitialize {["a" := VNum 1]} None]
             (subscribe (OnlySelectWhen ["a"; "b"])
                (subscribe StateStream new_container)) in
  ∃ o1 o2,
    state_observers c !! 0 = Some o1 ∧ state_observers c !! 1 = Some o2
    ∧ obs_kind o1 = StateStream ∧ obs_kind o2 = OnlySelectWhen ["a"; "b"]
    ∧ length (received o1) = 1 ∧ length (received o2) = 2
    ∧ received o1 ≠ received o2
    ∧ snapshot c = Ok {["a" := VNum 1]}
    ∧ received o1 = [EmitState {["a" := VNum 1; "b" := VNum 2]}]
    ∧ received o2 = [EmitState {["a" := VNum 1; "b" := VNum 2]};
                     EmitState {["a" := VNum 1]}].
Proof.
  eexists _, _. split; [vm_compute; reflexivity|].
  split; [vm_compute; reflexivity|].
  split; [reflexivity|]. split; [reflexivity|].
  split; [reflexivity|]. split; [reflexivity|].
  split; [intros H; apply (f_equal length) in H; discriminate H|].
  split_and!; vm_compute; reflexivity.
Qed.

(** ** Deliveries to the bindings *)

Lemma patch_from_stream_frame (object : State) (c : Container) :
  triggers (patch_from_stream object c) = triggers c
  ∧ bindings (patch_from_stream object c) = bindings c
  ∧ inputs (patch_from_stream object c) = inputs c
  ∧ next_sub (patch_from_stream object c) = next_sub c
  ∧ subscribed (patch_from_stream object c) = subscribed c
  ∧ destroy_stopped (patch_from_stream object c) = destroy_stopped c.
Proof. unfold patch_from_stream, patch. by destruct (state_value c). Qed.

Lemma patch_from_stream_initialized (object s : State) (c : Container) :
  state_value c = Some s →
  state_value (patch_from_stream object c) = Some (patch_newState s object)
  ∧ state_pushes (patch_from_stream object c)
    = state_pushes c ++ [patch_newState s object]
  ∧ unhandled (patch_from_stream object c) = unhandled c.
Proof. intros H. unfold patch_from_stream, patch. by rewrite H. Qed.

Lemma patch_from_stream_uninitialized (object : State) (c : Container) :
  state_value c = None →
  patch_from_stream object c = report_unhandled Uninitialized c.
Proof. intros H. unfold patch_from_stream, patch. by rewrite H. Qed.

Lemma patch_from_stream_pushes (object : State) (c : Container) :
  state_pushes c `prefix_of` state_pushes (patch_from_stream object c)
  ∧ (is_Some (state_value c) →
     is_Some (state_value (patch_from_stream object c))).
Proof.
  unfold patch_from_stream, patch. destruct (state_value c); simpl.
  - split; [by apply prefix_app_r | eauto].
  - split; [done | by intros [? ?]].
Qed.

Lemma grows_refl (c : Container) : grows c c.
Proof. by repeat split. Qed.

Lemma grows_trans (c c1 c2 : Container) : grows c c1 → grows c1 c2 → grows c c2.
Proof.
  intros (?&?&?&?&?&?&?&?) (?&?&?&?&?&?&?&?). unfold grows.
  split_and!; try congruence; try (by etrans); try lia; auto.
Qed.

Lemma grows_patch_from_stream (object : State) (c : Container) :
  grows c (patch_from_stream object c).
Proof.
  destruct (patch_from_stream_frame object c) as (?&Hb&?&Hn&Hs&?).
  destruct (patch_from_stream_pushes object c) as [? ?].
  repeat split; try done; [lia | by rewrite Hs | by rewrite Hb].
Qed.

Lemma grows_set_binding i b (c : Container) : grows c (set_binding i b c).
Proof. repeat split; try done. simpl. by rewrite length_insert. Qed.

Lemma grows_subscribe_producer source (c : Container) :
  grows c (subscribe_producer source c).2.
Proof. repeat split; try done; simpl; [lia | by apply prefix_app_r]. Qed.

(** A value reaching the subscriber callback of binding [i]. *)
Lemma binding_deliver_spec i b value (c : Container) :
  let c' := binding_deliver i b value c in
  bindings c'
  = <[i := mkBinding (bind_key b) (bind_source b) (bind_outer b)
             (bind_triggered b) (bind_latest b) (bind_inner b) (bind_closed b)
             (bind_emitted b ++ [value])]> (bindings c)
  ∧ next_sub c' = next_sub c
  ∧ subscribed c' = subscribed c
  ∧ state_value c' = state_value (patch_from_stream {[bind_key b := value]} c)
  ∧ state_pushes c' = state_pushes (patch_from_stream {[bind_key b := value]} c)
  ∧ grows c c'.
Proof.
  intros c'. subst c'. unfold binding_deliver.
  destruct (patch_from_stream_frame {[bind_key b := value]} c)
    as (?&Hb&?&Hn&Hs&?).
  simpl. rewrite Hb, Hn, Hs. split_and!; try done.
  eapply grows_trans; [apply grows_patch_from_stream | apply grows_set_binding].
Qed.

(** [switchMap] switching binding [i] to a fresh inner subscription. *)
Lemma binding_switch_spec i b value (c : Container) :
  let c' := binding_switch i b value c in
  bindings c'
  = <[i := mkBinding (bind_key b) (bind_source b) (bind_outer b)
             (bind_triggered b) (bind_latest b) (Some (next_sub c))
             (bind_closed b) (bind_emitted b ++ [value])]> (bindings c)
  ∧ next_sub c' = S (next_sub c)
  ∧ subscribed c' = subscribed c ++ [(next_sub c, bind_source b)]
  ∧ state_value c' = state_value (patch_from_stream {[bind_key b := value]} c)
  ∧ state_pushes c' = state_pushes (patch_from_stream {[bind_key b := value]} c)
  ∧ grows c c'.
Proof.
  intros c'. subst c'. unfold binding_switch.
  destruct (binding_deliver_spec i b value c) as (Hb&Hn&Hs&Hv&Hp&Hg).
  revert Hb Hn Hs Hv Hp Hg. generalize (binding_deliver i b value c).
  intros c1 Hb Hn Hs Hv Hp Hg. simpl.
  rewrite Hb, Hn, Hs, list_insert_insert_eq.
  split_and!; try done.
  eapply grows_trans; [exact Hg|]. unfold grows. simpl.
  rewrite length_insert, Hb, Hn, Hs, length_insert.
  split_and!; try done; [lia | by apply prefix_app_r].
Qed.

Lemma patch_from_stream_set_binding object i b (c : Container) :
  state_value (patch_from_stream object (set_binding i b c))
  = state_value (patch_from_stream object c)
  ∧ state_pushes (patch_from_stream object (set_binding i b c))
    = state_pushes (patch_from_stream object c).
Proof.
  unfold patch_from_stream, patch. simpl. by destruct (state_value c).
Qed.

(** [combineLatest] of binding [i] after one of its inputs was stored in
    [b]: with both inputs present it hands the pair to [switchMap]. *)
Lemma binding_combine_ready i b value (c : Container) :
  bind_triggered b = true → bind_latest b = Some value →
  let c' := binding_combine i b c in
  bindings c'
  = <[i := mkBinding (bind_key b) (bind_source b) (bind_outer b) true
             (Some value) (Some (next_sub c)) (bind_closed b)
             (bind_emitted b ++ [value])]> (bindings c)
  ∧ next_sub c' = S (next_sub c)
  ∧ subscribed c' = subscribed c ++ [(next_sub c, bind_source b)]
  ∧ state_value c' = state_value (patch_from_stream {[bind_key b := value]} c)
  ∧ state_pushes c' = state_pushes (patch_from_stream {[bind_key b := value]} c)
  ∧ grows c c'.
Proof.
  intros Ht Hl c'. subst c'. unfold binding_combine. rewrite Ht, Hl.
  destruct (binding_switch_spec i b value (set_binding i b c))
    as (Hb&Hn&Hs&Hv&Hp&Hg).
  destruct (patch_from_stream_set_binding {[bind_key b := value]} i b c)
    as [Hv' Hp'].
  rewrite Hb, Hn, Hs, Hv, Hp, Hv', Hp'. simpl.
  rewrite list_insert_insert_eq, Ht, Hl. split_and!; try done.
  eapply grows_trans; [apply (grows_set_binding i b) | exact Hg].
Qed.

Lemma binding_combine_waiting i b (c : Container) :
  bind_triggered b = false ∨ bind_latest b = None →
  binding_combine i b c = set_binding i b c.
Proof.
  unfold binding_combine.
  intros [H|H]; rewrite H; [done | by destruct (bind_triggered b)].
Qed.

Lemma binding_combine_turn i b0 b (c : Container) :
  bind_closed b0 = false → bind_closed b = false →
  bind_key b = bind_key b0 → bind_source b = bind_source b0 →
  bind_outer b = bind_outer b0 → bind_inner b = bind_inner b0 →
  bind_emitted b = bind_emitted b0 →
  (bind_triggered b0 = true → bind_triggered b = true) →
  turn i b0 c (binding_combine i b c).
Proof.
  intros Hc0 Hc Hk Hs Ho Hi He Ht.
  destruct (bind_triggered b) eqn:Htr, (bind_latest b) as [value|] eqn:Hl.
  1: { destruct (binding_combine_ready i b value c Htr Hl)
         as (Hb&Hn&Hsub&_&_&Hg).
       split; [done|]. right. eexists. split; [exact Hb|].
       unfold turn_of. simpl. rewrite Hn, Hsub, He, Hs.
       split_and!; try done; [by apply prefix_app_r | by right]. }
  all: rewrite binding_combine_waiting by auto.
  all: split; [apply grows_set_binding|]; right; exists b; split; [done|].
  all: unfold turn_of; rewrite He; split_and!; try done; try (by left).
  all: intros H; specialize (Ht H); congruence.
Qed.

Lemma binding_deliver_turn i b value (c : Container) :
  bind_closed b = false → turn i b c (binding_deliver i b value c).
Proof.
  intros Hc. destruct (binding_deliver_spec i b value c) as (Hb&Hn&Hs&_&_&Hg).
  split; [done|]. right. eexists. split; [exact Hb|].
  unfold turn_of. simpl.
  split_and!; try done; [by apply prefix_app_r | by left].
Qed.

Lemma turn_nothing i b (c : Container) : turn i b c c.
Proof. split; [apply grows_refl | by left]. Qed.

Lemma binding_on_trigger_turn key i b (c : Container) :
  turn i b c (binding_on_trigger key i b c).
Proof.
  unfold binding_on_trigger. destruct (bind_closed b) eqn:Hc;
    [apply turn_nothing|].
  destruct (String.eqb _ _); [|apply turn_nothing].
  by apply binding_combine_turn.
Qed.

Lemma binding_on_producer_turn sid value i b (c : Container) :
  turn i b c (binding_on_producer sid value i b c).
Proof.
  unfold binding_on_producer. destruct (bind_closed b) eqn:Hc;
    [apply turn_nothing|].
  destruct (_ =? _); [by apply binding_combine_turn|].
  case_bool_decide; [by apply binding_deliver_turn | apply turn_nothing].
Qed.

(** The bodies of both notification loops are turns. *)
Create HintDb turns discriminated.
#[local] Hint Resolve binding_on_trigger_turn binding_on_producer_turn : turns.

(** ** Closed subscriptions stay closed *)

Lemma frozen_refl (c : Container) : frozen c c.
Proof. by split. Qed.

Lemma frozen_trans (c c1 c2 : Container) :
  frozen c c1 → frozen c1 c2 → frozen c c2.
Proof. intros [Hb1 Hi1] [Hb2 Hi2]. split; eauto. Qed.

Lemma frozen_same (c c' : Container) :
  bindings c' = bindings c → inputs c' = inputs c → frozen c c'.
Proof. intros Hb Hi. split; intros ? ? ? ?; congruence. Qed.

Lemma turn_frozen i b (c c' : Container) :
  bindings c !! i = Some b → turn i b c c' → frozen c c'.
Proof.
  intros Hb [Hg [->|(b' & Hb' & Hturn)]]; [apply frozen_refl|].
  destruct Hg as (_&_&_&_&_&Hin&_&_). destruct Hturn as (Hlive & _).
  split.
  - intros j bj Hj Hcl. rewrite Hb'.
    rewrite list_lookup_insert_ne; [done|]. intros ->. congruence.
  - intros j sj Hj _. by rewrite Hin.
Qed.

Lemma for_each_binding_frozen f (c : Container) :
  (∀ i b c, turn i b c (f i b c)) → frozen c (for_each_binding f c).
Proof.
  intros Hf. apply (for_each_binding_invariant (frozen c)); [apply frozen_refl|].
  intros i b a Ha Hb. eapply frozen_trans; [exact Ha|].
  by eapply turn_frozen.
Qed.

Lemma for_each_binding_grows f (c : Container) :
  (∀ i b c, turn i b c (f i b c)) → grows c (for_each_binding f c).
Proof.
  intros Hf. apply (for_each_binding_invariant (grows c)); [apply grows_refl|].
  intros i b a Ha Hb. eapply grows_trans; [exact Ha | apply Hf].
Qed.

Lemma input_deliver_frame i s object (c : Container) :
  let c' := input_deliver i s object c in
  bindings c' = bindings c ∧ triggers c' = triggers c
  ∧ next_sub c' = next_sub c ∧ subscribed c' = subscribed c
  ∧ destroy_stopped c' = destroy_stopped c
  ∧ inputs c' = <[i := mkInput (in_source s) (in_sub s) (in_closed s)
                         (in_emitted s ++ [object])]> (inputs c).
Proof.
  simpl. unfold input_deliver.
  destruct (patch_from_stream_frame object c) as (Ht&Hb&Hi&Hn&Hs&Hd).
  simpl. by rewrite Ht, Hb, Hi, Hn, Hs, Hd.
Qed.

Lemma input_next_frame sid object (c : Container) :
  bindings (input_next sid object c) = bindings c
  ∧ triggers (input_next sid object c) = triggers c
  ∧ next_sub (input_next sid object c) = next_sub c
  ∧ subscribed (input_next sid object c) = subscribed c
  ∧ destroy_stopped (input_next sid object c) = destroy_stopped c.
Proof.
  apply (input_next_invariant
           (λ c', bindings c' = bindings c ∧ triggers c' = triggers c
                  ∧ next_sub c' = next_sub c ∧ subscribed c' = subscribed c
                  ∧ destroy_stopped c' = destroy_stopped c)); [done|].
  intros i s a (Hb&Ht&Hn&Hs&Hd) _ _.
  destruct (input_deliver_frame i s object a) as (Hb'&Ht'&Hn'&Hs'&Hd'&_).
  split_and!; congruence.
Qed.

Lemma input_next_frozen sid object (c : Container) :
  frozen c (input_next sid object c).
Proof.
  apply (input_next_invariant (frozen c)); [apply frozen_refl|].
  intros i s a Ha Hs Hlive. eapply frozen_trans; [exact Ha|].
  destruct (input_deliver_frame i s object a) as (Hb&_&_&_&_&Hi).
  split.
  - intros j bj Hj _. by rewrite Hb.
  - intros j sj Hj Hcl. rewrite Hi.
    rewrite list_lookup_insert_ne; [done|]. intros ->. congruence.
Qed.

Lemma connect_key_frame (c : Container) (entry : string * Producer) :
  ∃ bs, bindings (connect_key c entry) = bindings c ++ bs
    ∧ inputs (connect_key c entry) = inputs c
    ∧ destroy_stopped (connect_key c entry) = destroy_stopped c
    ∧ state_value (connect_key c entry) = state_value c.
Proof.
  destruct entry as [key source]. unfold connect_key, connect_subscribe.
  destruct (triggers c !! key); [|destruct (inherited key)];
    [eexists [_] | exists [] | eexists [_]]; split_and!;
    try reflexivity.
  simpl. by rewrite app_nil_r.
Qed.

Lemma error_frozen sid (c : Container) :
  frozen c (producer_error sid c) ∧ frozen c (input_error sid c).
Proof.
  split; split; simpl; try done.
  - intros j bj Hj Hcl. rewrite list_lookup_fmap, Hj. simpl.
    unfold binding_holds. by rewrite Hcl.
  - intros j sj Hj Hcl. rewrite list_lookup_fmap, Hj. simpl.
    unfold input_holds. by rewrite Hcl.
Qed.

Lemma connect_frozen object (c : Container) :
  frozen c (connect object c)
  ∧ destroy_stopped (connect object c) = destroy_stopped c
  ∧ state_value (connect object c) = state_value c.
Proof.
  unfold connect.
  apply (foldl_invariant
           (λ c', frozen c c' ∧ destroy_stopped c' = destroy_stopped c
                  ∧ state_value c' = state_value c));
    [split; [apply frozen_refl | done]|].
  intros a entry (Ha & Hd & Hv).
  destruct (connect_key_frame a entry) as (b & Hb & Hi & Hd' & Hv').
  split_and!; [|congruence..]. eapply frozen_trans; [exact Ha|]. split.
  - intros j bj Hj _. rewrite Hb. by apply lookup_app_l_Some.
  - intros j sj Hj _. by rewrite Hi.
Qed.

Lemma initialize_frozen state inputState (c : Container) :
  frozen c (initialize state inputState c)
  ∧ destroy_stopped (initialize state inputState c) = destroy_stopped c.
Proof.
  unfold initialize. destruct inputState as [source|]; simpl.
  - split; [|done]. split; [done|].
    intros j sj Hj _. by apply lookup_app_l_Some.
  - split; [|done]. by apply frozen_same.
Qed.

(** Once [destroy$$] has completed it stays so, and whatever it closed is
    never touched again. *)
Lemma step_frozen (c : Container) (e : Event) :
  destroy_stopped c = true →
  frozen c (step c e) ∧ destroy_stopped (step c e) = true.
Proof.
  intros Hd.
  destruct e as [state src|object|k|object|key|sid value|sid object| |sid|sid]; simpl.
  - destruct (initialize_frozen state src c) as [? Hd']. by rewrite Hd'.
  - unfold patch. destruct (state_value c); by split; [apply frozen_same|].
  - by split; [apply frozen_same|].
  - destruct (connect_frozen object c) as (? & Hd' & _). by rewrite Hd'.
  - unfold trigger. destruct (triggers c !! key) as [r|];
      [|by destruct (inherited key); (split; [apply frozen_refl|])].
    set (c1 := with_triggers (<[key:=rs_next r]> (triggers c)) c).
    split.
    + eapply (frozen_trans _ c1); [by apply frozen_same|].
      apply for_each_binding_frozen. auto with turns.
    + destruct (for_each_binding_grows (binding_on_trigger key) c1)
        as (_&_&_&_&_&_&Hd'&_);
        [auto with turns | by rewrite Hd'].
  - split.
    + apply for_each_binding_frozen. auto with turns.
    + destruct (for_each_binding_grows (binding_on_producer sid value) c)
        as (_&_&_&_&_&_&Hd'&_);
        [auto with turns | by rewrite Hd'].
  - split; [apply input_next_frozen|].
    destruct (input_next_frame sid object c) as (_&_&_&_&Hd'). by rewrite Hd'.
  - unfold ngOnDestroy. rewrite Hd. by split; [apply frozen_refl|].
  - split; [apply error_frozen | done].
  - split; [apply error_frozen | done].
Qed.

Lemma run_frozen (es : list Event) (c : Container) :
  destroy_stopped c = true →
  frozen c (run es c) ∧ destroy_stopped (run es c) = true.
Proof.
  intros Hd. induction es as [|e es [IH Hd']] using rev_ind.
  - by split; [apply frozen_refl|].
  - rewrite run_snoc. destruct (step_frozen (run es c) e Hd') as [Hf ?].
    split; [by eapply frozen_trans | done].
Qed.

Lemma run_closed_observer (es : list Event) (c : Container) (i : nat)
    (o : Observer) :
  state_observers c !! i = Some o → obs_closed o = true →
  state_observers (run es c) !! i = Some o.
Proof.
  intros Ho Hcl. destruct (run_observers_follow es c) as (gs & extra & -> & _).
  apply lookup_app_l_Some. rewrite list_lookup_fmap, Ho. simpl.
  by rewrite observer_signals_closed.
Qed.

(** ** Disposal *)

Lemma ngOnDestroy_closes (c : Container) :
  destroy_stopped c = false →
  destroy_stopped (ngOnDestroy c) = true
  ∧ state_observers (ngOnDestroy c) = observer_close <$> state_observers c
  ∧ bindings (ngOnDestroy c) = binding_close <$> bindings c
  ∧ inputs (ngOnDestroy c) = input_close <$> inputs c.
Proof. intros H. unfold ngOnDestroy. by rewrite H. Qed.

(** C5, the claim as stated fails: a consumer that subscribes to [state$]
    after [ngOnDestroy] is handed the current state at once and every later
    patch as well, because [takeUntil] ignores the bare completion of
    [destroy$$]. *)
Lemma late_subscriber_still_receives :
  let c := run [EInitialize {["a" := VNum 0]} None; EDestroy] new_container in
  destroy_stopped c = true
  ∧ ∃ o, state_observers
           (run [ESubscribe StateStream; EPatch {["a" := VNum 1]}] c) !! 0
         = Some o
      ∧ received o = [EmitState {["a" := VNum 0]}; EmitState {["a" := VNum 1]}].
Proof.
  split; [reflexivity|]. eexists. split; [vm_compute; reflexivity|].
  vm_compute. reflexivity.
Qed.

(** C5, as amended: every subscription that exists when [ngOnDestroy] fires
    the cancellation signal, be it to [state$], to a selection stream, of a
    [connect] binding or of the input stream of [initialize], delivers
    nothing afterwards, whatever is called and whatever the producers
    send. *)
Theorem no_emission_after_disposal (c : Container) (es : list Event) :
  destroy_stopped c = false →
  (∀ i o, state_observers c !! i = Some o →
     ∃ o', state_observers (run es (ngOnDestroy c)) !! i = Some o'
       ∧ received o' = received o)
  ∧ (∀ i b, bindings c !! i = Some b →
       ∃ b', bindings (run es (ngOnDestroy c)) !! i = Some b'
         ∧ bind_emitted b' = bind_emitted b)
  ∧ (∀ i s, inputs c !! i = Some s →
       ∃ s', inputs (run es (ngOnDestroy c)) !! i = Some s'
         ∧ in_emitted s' = in_emitted s).
Proof.
  intros Hlive.
  destruct (ngOnDestroy_closes c Hlive) as (Hd & Ho & Hb & Hi).
  destruct (run_frozen es (ngOnDestroy c) Hd) as [[Hfb Hfi] _].
  split_and!.
  - intros i o Hio. exists (observer_close o). split; [|done].
    apply run_closed_observer; [|done]. by rewrite Ho, list_lookup_fmap, Hio.
  - intros i b Hib. exists (binding_close b). split; [|done].
    apply Hfb; [|done]. by rewrite Hb, list_lookup_fmap, Hib.
  - intros i s His. exists (input_close s). split; [|done].
    apply Hfi; [|done]. by rewrite Hi, list_lookup_fmap, His.
Qed.

Lemma no_emission_after_disposal_witness :
  ∃ o' b',
    state_observers
      (run [EPatch {["a" := VNum 1]}; EProducerNext 1 (VNum 5); ETrigger "x";
            EInputNext 0 {["a" := VNum 2]}]
         (ngOnDestroy
            (run [EInitialize {["a" := VNum 0]} (Some 3);
                  ESubscribe StateStream; EConnect [("x", 7)]]
               new_container))) !! 0 = Some o'
    ∧ received o' = [EmitState {["a" := VNum 0]}]
    ∧ bindings
        (run [EPatch {["a" := VNum 1]}; EProducerNext 1 (VNum 5); ETrigger "x";
              EInputNext 0 {["a" := VNum 2]}]
           (ngOnDestroy
              (run [EInitialize {["a" := VNum 0]} (Some 3);
                    ESubscribe StateStream; EConnect [("x", 7)]]
                 new_container))) !! 0 = Some b'
    ∧ bind_emitted b' = [].
Proof.
  assert (destroy_stopped
            (run [EInitialize {["a" := VNum 0]} (Some 3);
                  ESubscribe StateStream; EConnect [("x", 7)]]
               new_container) = false) as Hlive by (vm_compute; reflexivity).
  destruct (no_emission_after_disposal
              (run [EInitialize {["a" := VNum 0]} (Some 3);
                    ESubscribe StateStream; EConnect [("x", 7)]]
                 new_container)
              [EPatch {["a" := VNum 1]}; EProducerNext 1 (VNum 5); ETrigger "x";
               EInputNext 0 {["a" := VNum 2]}] Hlive)
    as (Hobs & Hbind & _).
  destruct (Hobs 0 (mkObserver StateStream (Some {["a" := VNum 0]}) false
                      [{["a" := VNum 0]}]))
    as (o' & Ho' & Hr); [vm_compute; reflexivity|].
  destruct (Hbind 0 (mkBinding "x" 7 1 true None None false []))
    as (b' & Hb' & He); [vm_compute; reflexivity|].
  exists o', b'. split; [exact Ho'|]. split; [exact Hr|].
  split; [exact Hb' | exact He].
Defined.

(** ** Initialisation *)

Lemma binding_deliver_uninitialized i b value (c : Container) :
  state_value c = None → state_value (binding_deliver i b value c) = None.
Proof.
  intros H. destruct (binding_deliver_spec i b value c) as (_&_&_&Hv&_).
  by rewrite Hv, patch_from_stream_uninitialized.
Qed.

Lemma binding_combine_uninitialized i b (c : Container) :
  state_value c = None → state_value (binding_combine i b c) = None.
Proof.
  intros H.
  destruct (bind_triggered b) eqn:Ht, (bind_latest b) as [value|] eqn:Hl.
  1: { destruct (binding_combine_ready i b value c Ht Hl) as (_&_&_&Hv&_).
       by rewrite Hv, patch_from_stream_uninitialized. }
  all: by rewrite binding_combine_waiting by auto.
Qed.

Lemma step_stays_uninitialized (c : Container) (e : Event) :
  state_value c = None → is_initialize e = false →
  state_value (step c e) = None.
Proof.
  intros Hv He.
  destruct e as [state src|object|k|object|key|sid value|sid object| |sid|sid];
    simpl in *; try done.
  - unfold patch. by rewrite Hv.
  - destruct (connect_frozen object c) as (_ & _ & ->). done.
  - unfold trigger. destruct (triggers c !! key) as [r|]; [|by destruct (inherited key)].
    apply (for_each_binding_invariant (λ c', state_value c' = None)); [done|].
    intros i b a Ha _. unfold binding_on_trigger.
    destruct (bind_closed b); [done|]. destruct (String.eqb _ _); [|done].
    by apply binding_combine_uninitialized.
  - apply (for_each_binding_invariant (λ c', state_value c' = None)); [done|].
    intros i b a Ha _. unfold binding_on_producer.
    destruct (bind_closed b); [done|].
    destruct (_ =? _); [by apply binding_combine_uninitialized|].
    case_bool_decide; [by apply binding_deliver_uninitialized | done].
  - apply (input_next_invariant (λ c', state_value c' = None)); [done|].
    intros i s a Ha _ _. unfold input_deliver. simpl.
    by rewrite patch_from_stream_uninitialized.
  - unfold ngOnDestroy. by destruct (destroy_stopped c).
Qed.

Lemma step_stays_initialized (c : Container) (e : Event) :
  is_Some (state_value c) → is_Some (state_value (step c e)).
Proof.
  intros Hv.
  destruct e as [state src|object|k|object|key|sid value|sid object| |sid|sid]; simpl.
  - rewrite initialize_value. eauto.
  - unfold patch. destruct (state_value c); [simpl; eauto | done].
  - done.
  - destruct (connect_frozen object c) as (_ & _ & ->). done.
  - unfold trigger. destruct (triggers c !! key) as [r|]; [|by destruct (inherited key)].
    set (c1 := with_triggers (<[key:=rs_next r]> (triggers c)) c).
    destruct (for_each_binding_grows (binding_on_trigger key) c1)
      as (_&_&_&H&_); [auto with turns | by apply H].
  - destruct (for_each_binding_grows (binding_on_producer sid value) c)
      as (_&_&_&H&_); [auto with turns | by apply H].
  - apply (input_next_invariant (λ c', is_Some (state_value c'))); [done|].
    intros i s a Ha _ _. unfold input_deliver. simpl.
    by apply patch_from_stream_pushes.
  - unfold ngOnDestroy. by destruct (destroy_stopped c).
  - done.
  - done.
Qed.

Lemma run_stays_initialized (es : list Event) (c : Container) :
  is_Some (state_value c) → is_Some (state_value (run es c)).
Proof.
  intros H. induction es as [|e es IH] using rev_ind; [done|].
  rewrite run_snoc. by apply step_stays_initialized.
Qed.

Lemma run_initialized_iff (es : list Event) :
  state_value (run es new_container) = None
  ↔ existsb is_initialize es = false.
Proof.
  induction es as [|e es IH] using rev_ind; [done|].
  rewrite run_snoc, existsb_app. simpl. rewrite orb_false_r, orb_false_iff.
  split.
  - intros Hnone. destruct (state_value (run es new_container)) eqn:Hv.
    + destruct (step_stays_initialized (run es new_container) e) as [s Hs];
        [by rewrite Hv; eauto | congruence].
    + split; [by apply IH|]. destruct e; try done.
      simpl in Hnone. by rewrite initialize_value in Hnone.
  - intros [Hes He]. apply step_stays_uninitialized; [by apply IH | done].
Qed.

(** C8: on a container that started fresh, [snapshot] and [patch] throw the
    Uninitialized error, as the result of the call itself, exactly when no
    [initialize] call has happened so far; and from an initialised state on,
    whatever happens next, neither of them throws it again. *)
Theorem uninitialized_iff_before_initialize (es : list Event) (object : State) :
  (snapshot (run es new_container) = Throw Uninitialized
   ↔ existsb is_initialize es = false)
  ∧ (patch object (run es new_container) = Throw Uninitialized
     ↔ existsb is_initialize es = false)
  ∧ (existsb is_initialize es = true →
     ∀ es', ∃ s c',
       snapshot (run es' (run es new_container)) = Ok s
       ∧ patch object (run es' (run es new_container)) = Ok c').
Proof.
  pose proof (run_initialized_iff es) as Hiff.
  split_and!.
  - rewrite <- Hiff. unfold snapshot.
    destruct (state_value (run es new_container)); split; done.
  - rewrite <- Hiff. unfold patch.
    destruct (state_value (run es new_container)); split; done.
  - intros Hinit es'.
    assert (is_Some (state_value (run es new_container))) as Hsome.
    { destruct (state_value (run es new_container)); [eauto|].
      destruct Hiff as [Hiff _]. rewrite Hiff in Hinit; done. }
    destruct (run_stays_initialized es' _ Hsome) as [s Hs].
    unfold snapshot, patch. rewrite Hs. eauto.
Qed.

Lemma uninitialized_iff_before_initialize_witness :
  ∃ s c',
    snapshot (run [ESubscribe StateStream; EDestroy]
                (run [EPatch {["a" := VNum 1]};
                      EInitialize {["a" := VNum 0]} None] new_container))
    = Ok s
    ∧ patch {["a" := VNum 2]}
        (run [ESubscribe StateStream; EDestroy]
           (run [EPatch {["a" := VNum 1]};
                 EInitialize {["a" := VNum 0]} None] new_container))
      = Ok c'.
Proof.
  destruct (uninitialized_iff_before_initialize
              [EPatch {["a" := VNum 1]}; EInitialize {["a" := VNum 0]} None]
              {["a" := VNum 2]}) as (_ & _ & Hafter).
  exact (Hafter eq_refl [ESubscribe StateStream; EDestroy]).
Defined.

(** ** The trigger registry *)

Lemma connect_key_triggers (c : Container) (entry : string * Producer)
    (key : string) :
  is_Some (triggers (connect_key c entry) !! key)
  ↔ is_Some (triggers c !! key) ∨ (entry.1 = key ∧ inherited key = false).
Proof.
  destruct entry as [k source]. unfold connect_key, connect_subscribe.
  destruct (triggers c !! k) as [r|] eqn:Hk;
    [|destruct (inherited k) eqn:Hin]; simpl.
  - split; [by left|]. intros [H|[<- _]]; [done | by rewrite Hk].
  - split; [by left|]. intros [H|[<- H]]; [done | congruence].
  - rewrite lookup_insert. case_decide as Hd.
    + subst k. split; [by right | eauto].
    + split; [by left|]. by intros [H|[H _]].
Qed.

Lemma connect_triggers object (c : Container) (key : string) :
  is_Some (triggers (connect object c) !! key)
  ↔ is_Some (triggers c !! key) ∨ (key ∈ object.*1 ∧ inherited key = false).
Proof.
  unfold connect. revert c.
  induction object as [|entry l IH]; intros c; simpl.
  - split; [by left|]. intros [H|[H _]]; [done | by apply elem_of_nil in H].
  - rewrite IH, connect_key_triggers, elem_of_cons.
    intuition congruence.
Qed.

Lemma trigger_fires (key : string) (r : ReplaySubject) (c : Container) :
  triggers c !! key = Some r →
  ∃ c', trigger key c = Ok c'
    ∧ triggers c' = <[key := rs_next r]> (triggers c).
Proof.
  intros Hr. unfold trigger. rewrite Hr. eexists. split; [done|].
  set (c1 := with_triggers (<[key:=rs_next r]> (triggers c)) c).
  destruct (for_each_binding_grows (binding_on_trigger key) c1)
    as (_&_&_&_&Ht&_); [auto with turns | done].
Qed.

Lemma step_triggers (c : Container) (e : Event) (key : string) :
  is_Some (triggers (step c e) !! key)
  ↔ is_Some (triggers c !! key)
    ∨ (connects key e = true ∧ inherited key = false).
Proof.
  assert (∀ c', triggers c' = triggers c → connects key e = false →
            is_Some (triggers c' !! key)
            ↔ is_Some (triggers c !! key)
              ∨ (connects key e = true ∧ inherited key = false)) as Hsame.
  { intros c' -> ->. intuition congruence. }
  destruct e as [state src|object|k|object|k|sid value|sid object| |sid|sid]; simpl.
  - apply Hsame; [|done]. unfold initialize. by destruct src.
  - apply Hsame; [|done]. unfold patch. by destruct (state_value c).
  - by apply Hsame.
  - rewrite connect_triggers, bool_decide_eq_true. done.
  - destruct (triggers c !! k) as [r|] eqn:Hk.
    + destruct (trigger_fires k r c Hk) as (c' & -> & ->).
      rewrite lookup_insert. case_decide as Hd; [subst k|intuition congruence].
      rewrite Hk. intuition eauto.
    + unfold trigger. rewrite Hk. destruct (inherited k); intuition congruence.
  - apply Hsame; [|done].
    destruct (for_each_binding_grows (binding_on_producer sid value) c)
      as (_&_&_&_&Ht&_); [auto with turns | done].
  - apply Hsame; [|done]. by destruct (input_next_frame sid object c) as (_&->&_).
  - apply Hsame; [|done]. unfold ngOnDestroy. by destruct (destroy_stopped c).
  - by apply Hsame.
  - by apply Hsame.
Qed.

(** The registry never owns a name of [Object.prototype], and owns any
    other name exactly when a [connect] call had it among its keys. *)
Lemma run_triggers (es : list Event) (key : string) :
  is_Some (triggers (run es new_container) !! key)
  ↔ existsb (connects key) es = true ∧ inherited key = false.
Proof.
  induction es as [|e es IH] using rev_ind.
  - simpl. rewrite lookup_empty. split; [by intros [? ?] | by intros [? ?]].
  - rewrite run_snoc, step_triggers, IH, existsb_app. simpl.
    rewrite orb_false_r, orb_true_iff. intuition congruence.
Qed.

(** ** The turn of one binding inside a notification loop *)

(** A loop over the bindings seen from binding [i]: [Pre] holds until its
    turn, [Post] from its turn on. *)
Lemma for_each_binding_split (f : nat → Binding → Container → Container)
    (c0 : Container) (i : nat) (b : Binding) (Pre Post : Container → Prop) :
  bindings c0 !! i = Some b →
  Pre c0 →
  (∀ c, Pre c → bindings c !! i = Some b) →
  (∀ j bj c, j ≠ i → Pre c → bindings c !! j = Some bj → Pre (f j bj c)) →
  (∀ c, Pre c → Post (f i b c)) →
  (∀ j bj c, j ≠ i → Post c → bindings c !! j = Some bj → Post (f j bj c)) →
  Post (for_each_binding f c0).
Proof.
  intros Hb Hpre0 Hpre_i Hpre Hturn Hpost. unfold for_each_binding.
  pose proof (lookup_lt_Some _ _ _ Hb) as Hlt.
  replace (length (bindings c0)) with (i + (1 + (length (bindings c0) - S i)))
    by lia.
  rewrite !seq_app, !foldl_app. simpl.
  apply foldl_invariant_in.
  - assert (Pre (foldl (λ c j, match bindings c !! j with
                               | Some bj => f j bj c
                               | None => c
                               end) c0 (seq 0 i))) as Hmid.
    { apply foldl_invariant_in; [done|]. intros a j Hj Ha.
      apply elem_of_seq in Hj.
      destruct (bindings a !! j) eqn:Hbj; [|done].
      apply Hpre; [lia | done | done]. }
    rewrite (Hpre_i _ Hmid). by apply Hturn.
  - intros a j Hj Ha. apply elem_of_seq in Hj.
    destruct (bindings a !! j) eqn:Hbj; [|done].
    apply Hpost; [lia | done | done].
Qed.

Lemma turn_other i j b (c c' : Container) :
  turn i b c c' → j ≠ i → bindings c' !! j = bindings c !! j.
Proof.
  intros [_ [->|(b' & -> & _)]] Hne; [done|].
  by rewrite list_lookup_insert_ne.
Qed.

Lemma elem_of_binding_ids (b : Binding) (sid : SubId) :
  sid ∈ binding_ids b ↔ sid = bind_outer b ∨ bind_inner b = Some sid.
Proof.
  unfold binding_ids. rewrite elem_of_cons.
  destruct (bind_inner b) as [x|]; simpl.
  - rewrite list_elem_of_singleton.
    split; (intros [?|?]; [by left | right; congruence]).
  - split; (intros [?|H]; [by left|]); [by apply elem_of_nil in H | done].
Qed.

(** ** Subscription identities stay in order *)

Lemma turn_ids_wf i b (c c' : Container) :
  bindings c !! i = Some b → turn i b c c' → ids_wf c → ids_wf c'.
Proof.
  intros Hb [Hg [->|(b' & Hb' & Hturn)]] (Hbound & Huniq & Hsubs & Hfired);
    [done|].
  destruct Hg as (Hn & _ & _ & _ & Ht & _).
  destruct Hturn as (_ & _ & Hk & _ & Ho & Htr & _ & Hinner).
  pose proof (lookup_lt_Some _ _ _ Hb) as Hlt.
  destruct (Hbound i b Hb) as (Hbt & Hbk & Hbb).
  assert (∀ sid, sid ∈ binding_ids b' →
            sid ∈ binding_ids b ∨ (sid = next_sub c ∧ next_sub c < next_sub c'))
    as Hids.
  { intros sid. rewrite !elem_of_binding_ids, Ho.
    intros [->|Hin]; [by left; left|].
    destruct Hinner as [(Hi & _)|(Hi & Hn' & _)].
    - left. right. congruence.
    - right. split; [congruence | lia]. }
  assert (∀ j bj, bindings c' !! j = Some bj → j ≠ i → bindings c !! j = Some bj)
    as Hold.
  { intros j bj Hj Hne. by rewrite Hb', list_lookup_insert_ne in Hj. }
  assert (bindings c' !! i = Some b') as Hnew.
  { by rewrite Hb', list_lookup_insert_eq. }
  split_and!.
  - intros j bj Hj. destruct (decide (j = i)) as [->|Hne].
    + assert (bj = b') as -> by congruence.
      split; [auto|]. split; [by rewrite Ht, Hk|].
      intros sid [Hin|[-> ?]]%Hids; [|done].
      specialize (Hbb sid Hin). lia.
    + destruct (Hbound j bj (Hold j bj Hj Hne)) as (? & ? & Hjb).
      split; [done|]. split; [by rewrite Ht|].
      intros sid Hin. specialize (Hjb sid Hin). lia.
  - intros j1 j2 b1 b2 sid H1 H2 Hin1 Hin2.
    destruct (decide (j1 = i)) as [->|Hne1], (decide (j2 = i)) as [->|Hne2];
      [done| | |].
    + assert (b1 = b') as -> by congruence.
      pose proof (Hold j2 b2 H2 Hne2) as H2'.
      destruct (Hids sid Hin1) as [Hin|[-> _]].
      * by eapply (Huniq i j2 b b2 sid).
      * destruct (Hbound j2 b2 H2') as (_ & _ & Hjb).
        specialize (Hjb _ Hin2). lia.
    + assert (b2 = b') as -> by congruence.
      pose proof (Hold j1 b1 H1 Hne1) as H1'.
      destruct (Hids sid Hin2) as [Hin|[-> _]].
      * by eapply (Huniq j1 i b1 b sid).
      * destruct (Hbound j1 b1 H1') as (_ & _ & Hjb).
        specialize (Hjb _ Hin1). lia.
    + eapply (Huniq j1 j2 b1 b2 sid); eauto.
  - intros sid source Hin.
    destruct Hinner as [(_ & Hn' & Hs')|(_ & Hn' & Hs')]; rewrite Hs' in Hin.
    + specialize (Hsubs _ _ Hin). lia.
    + apply elem_of_app in Hin as [Hin|Hin].
      * specialize (Hsubs _ _ Hin). lia.
      * apply list_elem_of_singleton in Hin. injection Hin as -> _. lia.
  - intros key r Hr. rewrite Ht in Hr. eauto.
Qed.

Lemma for_each_binding_ids_wf f (c : Container) :
  (∀ i b c, turn i b c (f i b c)) → ids_wf c → ids_wf (for_each_binding f c).
Proof.
  intros Hf Hwf. apply (for_each_binding_invariant ids_wf); [done|].
  intros i b a Ha Hb. by eapply turn_ids_wf.
Qed.

(** Changes that leave the bindings and the registry alone. *)
Lemma ids_wf_frame (c c' : Container) :
  bindings c' = bindings c → triggers c' = triggers c →
  next_sub c ≤ next_sub c' →
  (∀ sid source, (sid, source) ∈ subscribed c' → sid < next_sub c') →
  ids_wf c → ids_wf c'.
Proof.
  intros Hb Ht Hn Hs (Hbound & Huniq & _ & Hfired). split_and!.
  - intros i b Hi. rewrite Hb in Hi. destruct (Hbound i b Hi) as (? & ? & Hbb).
    split; [done|]. split; [by rewrite Ht|].
    intros sid Hin. specialize (Hbb sid Hin). lia.
  - intros i j bi bj sid Hi Hj. rewrite Hb in Hi, Hj. by apply Huniq.
  - done.
  - intros key r Hr. rewrite Ht in Hr. eauto.
Qed.

Lemma connect_subscribe_ids_wf key source (c : Container) :
  is_Some (triggers c !! key) → ids_wf c →
  ids_wf (connect_subscribe key source c).
Proof.
  intros [r Hr] (Hbound & Huniq & Hsubs & Hfired).
  pose proof (Hfired _ _ Hr) as Hbuf.
  unfold connect_subscribe. simpl. rewrite Hr. simpl.
  rewrite bool_decide_eq_true_2 by done.
  split_and!; simpl.
  - intros i b Hi. apply lookup_app_Some in Hi as [Hi|[Hlen Hi]].
    + destruct (Hbound i b Hi) as (? & ? & Hbb). split; [done|].
      split; [done|]. intros sid Hin. specialize (Hbb sid Hin). lia.
    + apply list_lookup_singleton_Some in Hi as [_ <-]. simpl.
      split; [done|]. split; [by rewrite Hr; eauto|].
      intros sid Hin. apply elem_of_binding_ids in Hin as [->|Hin]; simpl in *;
        [lia | done].
  - intros i j bi bj sid Hi Hj Hini Hinj.
    apply lookup_app_Some in Hi as [Hi|[Hleni Hi]];
      apply lookup_app_Some in Hj as [Hj|[Hlenj Hj]].
    + by eapply Huniq.
    + apply list_lookup_singleton_Some in Hj as [_ <-].
      apply elem_of_binding_ids in Hinj as [->|Hinj]; simpl in *; [|done].
      destruct (Hbound i bi Hi) as (_ & _ & Hbb). specialize (Hbb _ Hini). lia.
    + apply list_lookup_singleton_Some in Hi as [_ <-].
      apply elem_of_binding_ids in Hini as [->|Hini]; simpl in *; [|done].
      destruct (Hbound j bj Hj) as (_ & _ & Hbb). specialize (Hbb _ Hinj). lia.
    + apply list_lookup_singleton_Some in Hi as [Hi _].
      apply list_lookup_singleton_Some in Hj as [Hj _]. lia.
  - intros sid src Hin. apply elem_of_app in Hin as [Hin|Hin].
    + specialize (Hsubs _ _ Hin). lia.
    + apply list_elem_of_singleton in Hin. injection Hin as -> _. lia.
  - done.
Qed.

Lemma connect_key_ids_wf (c : Container) (entry : string * Producer) :
  ids_wf c → ids_wf (connect_key c entry).
Proof.
  intros Hwf. pose proof Hwf as (_ & _ & Hsubs & _).
  destruct entry as [key source]. unfold connect_key.
  destruct (triggers c !! key) as [r|] eqn:Hk; [|destruct (inherited key)].
  - apply connect_subscribe_ids_wf; [by rewrite Hk | done].
  - by apply (ids_wf_frame c).
  - apply connect_subscribe_ids_wf; simpl; [rewrite lookup_insert_eq; eauto|].
    destruct Hwf as (Hbound & Huniq & _ & Hfired).
    split_and!; simpl; try done.
    + intros i b Hb. destruct (Hbound i b Hb) as (? & ? & ?).
      split_and!; try done. rewrite lookup_insert. by case_decide.
    + intros k r. rewrite lookup_insert. case_decide; [|by eauto].
      by intros [= <-].
Qed.

(** Ending some of the bindings leaves the identities in order. *)
Lemma closing_ids_wf (f : Binding → bool) (c c' : Container) :
  bindings c' = (λ b, if f b then binding_close b else b) <$> bindings c →
  triggers c' = triggers c → next_sub c' = next_sub c →
  subscribed c' = subscribed c →
  ids_wf c → ids_wf c'.
Proof.
  intros Hbs Ht Hn Hs (Hbound & Huniq & Hsubs & Hfired).
  assert (∀ i b', bindings c' !! i = Some b' →
            ∃ b, bindings c !! i = Some b
              ∧ bind_key b' = bind_key b ∧ bind_triggered b' = bind_triggered b
              ∧ ∀ sid, sid ∈ binding_ids b' → sid ∈ binding_ids b) as Hback.
  { intros i b'. rewrite Hbs, list_lookup_fmap.
    destruct (bindings c !! i) as [b|]; [|done]. intros [= <-].
    exists b. split; [done|]. destruct (f b); [|done]. split_and!; try done.
    intros sid. rewrite !elem_of_binding_ids. simpl. intros [?|?]; [auto|done]. }
  split_and!.
  - intros i b' (b & Hb & Hk & Htr & Hsub)%Hback.
    destruct (Hbound i b Hb) as (? & ? & Hbb).
    rewrite Hk, Htr, Ht, Hn. split_and!; try done.
    intros sid Hin. by apply Hbb, Hsub.
  - intros i j bi bj sid (b1 & Hb1 & _ & _ & Hs1)%Hback
      (b2 & Hb2 & _ & _ & Hs2)%Hback Hi Hj.
    eapply (Huniq i j b1 b2 sid); eauto.
  - by rewrite Hs, Hn.
  - by rewrite Ht.
Qed.

Lemma ngOnDestroy_ids_wf (c : Container) : ids_wf c → ids_wf (ngOnDestroy c).
Proof.
  intros Hwf. unfold ngOnDestroy. destruct (destroy_stopped c); [done|].
  destruct Hwf as (Hbound & Huniq & Hsubs & Hfired).
  assert (∀ i b', (binding_close <$> bindings c) !! i = Some b' →
            ∃ b, bindings c !! i = Some b ∧ b' = binding_close b) as Hback.
  { intros i b'. rewrite list_lookup_fmap.
    destruct (bindings c !! i) as [b|]; [|done]. intros [= <-]. eauto. }
  assert (∀ b sid, sid ∈ binding_ids (binding_close b) → sid ∈ binding_ids b)
    as Hsub.
  { intros b sid. rewrite !elem_of_binding_ids. simpl. intros [?|?]; [auto|done]. }
  split_and!; simpl.
  - intros i b' (b & Hb & ->)%Hback.
    destruct (Hbound i b Hb) as (? & ? & Hbb). split_and!; try done.
    intros sid Hin. apply Hbb. by apply Hsub.
  - intros i j bi bj sid (b1 & Hb1 & ->)%Hback (b2 & Hb2 & ->)%Hback Hi Hj.
    eapply (Huniq i j b1 b2 sid); eauto.
  - done.
  - done.
Qed.

Lemma trigger_ids_wf (key : string) (c c' : Container) :
  trigger key c = Ok c' → ids_wf c → ids_wf c'.
Proof.
  unfold trigger. destruct (triggers c !! key) as [r|] eqn:Hr; [|by destruct (inherited key)].
  intros [= <-] (Hbound & Huniq & Hsubs & Hfired).
  apply for_each_binding_ids_wf; [auto with turns|].
  split_and!; simpl; try done.
  - intros i b Hb. destruct (Hbound i b Hb) as (? & ? & ?).
    split_and!; try done. rewrite lookup_insert. by case_decide.
  - intros k r'. rewrite lookup_insert. case_decide; [|by eauto].
    by intros [= <-].
Qed.

Lemma step_ids_wf (c : Container) (e : Event) : ids_wf c → ids_wf (step c e).
Proof.
  intros Hwf. pose proof Hwf as (_ & _ & Hsubs & _).
  destruct e as [state src|object|k|object|key|sid value|sid object| |sid|sid]; simpl.
  - unfold initialize. destruct src as [source|]; simpl.
    + apply (ids_wf_frame c); [done | done | | | exact Hwf]; simpl; [lia|].
      intros sid src [Hin|Hin]%elem_of_app.
      * specialize (Hsubs _ _ Hin). lia.
      * apply list_elem_of_singleton in Hin. injection Hin as -> _. lia.
    + by apply (ids_wf_frame c).
  - unfold patch. destruct (state_value c); [|done]. by apply (ids_wf_frame c).
  - by apply (ids_wf_frame c).
  - unfold connect. apply foldl_invariant; [done|].
    intros a entry Ha. by apply connect_key_ids_wf.
  - destruct (trigger key c) as [c'|] eqn:Ht; [|done].
    by eapply trigger_ids_wf.
  - apply for_each_binding_ids_wf; [auto with turns | done].
  - destruct (input_next_frame sid object c) as (Hb & Ht & Hn & Hs & _).
    apply (ids_wf_frame c); [done | done | lia | | exact Hwf].
    rewrite Hs, Hn. done.
  - by apply ngOnDestroy_ids_wf.
  - by apply (closing_ids_wf (binding_holds sid) c).
  - by apply (ids_wf_frame c).
Qed.

Lemma run_ids_wf (es : list Event) : ids_wf (run es new_container).
Proof.
  induction es as [|e es IH] using rev_ind.
  - split_and!; simpl; try done.
    + intros sid source Hin. by apply elem_of_nil in Hin.
  - rewrite run_snoc. by apply step_ids_wf.
Qed.

(** ** Producer bindings: trigger, resubscription, replay *)

Lemma binding_on_trigger_ready key i b value (c : Container) :
  bind_closed b = false → bind_key b = key → bind_latest b = Some value →
  let c' := binding_on_trigger key i b c in
  bindings c' = <[i := resubscribed b (next_sub c) value]> (bindings c)
  ∧ subscribed c' = subscribed c ++ [(next_sub c, bind_source b)]
  ∧ state_value c' = state_value (patch_from_stream {[key := value]} c)
  ∧ state_pushes c' = state_pushes (patch_from_stream {[key := value]} c)
  ∧ grows c c'.
Proof.
  intros Hc Hk Hl c'. subst c'.
  destruct b as [k src outer tr latest inner closed emitted]. simpl in *.
  subst k latest closed. unfold binding_on_trigger. simpl.
  rewrite String.eqb_refl.
  destruct (binding_combine_ready i
              (mkBinding key src outer true (Some value) inner false emitted)
              value c eq_refl eq_refl)
    as (Hb & _ & Hs & Hv & Hp & Hg).
  done.
Qed.

Lemma binding_on_producer_foreign sid value j bj (c : Container) :
  sid ∉ binding_ids bj → binding_on_producer sid value j bj c = c.
Proof.
  rewrite elem_of_binding_ids. intros Hnot. unfold binding_on_producer.
  destruct (bind_closed bj); [done|].
  destruct (Nat.eqb_spec (bind_outer bj) sid) as [Heq|_];
    [destruct Hnot; auto|].
  rewrite bool_decide_eq_false_2; [done|]. intros Hin. destruct Hnot. auto.
Qed.

Lemma binding_on_producer_inner sid value i b (c : Container) :
  bind_closed b = false → bind_outer b ≠ sid → bind_inner b = Some sid →
  binding_on_producer sid value i b c = binding_deliver i b value c.
Proof.
  intros Hc Ho Hi. unfold binding_on_producer. rewrite Hc.
  destruct (Nat.eqb_spec (bind_outer b) sid) as [Heq|_]; [done|].
  by rewrite bool_decide_eq_true_2.
Qed.

(** A producer value for the inner subscription of binding [i], and of no
    other binding, is one delivery to that binding's subscriber. *)
Lemma producer_next_inner sid value i b (c : Container) :
  ids_wf c → bindings c !! i = Some b →
  bind_closed b = false → bind_outer b ≠ sid → bind_inner b = Some sid →
  step c (EProducerNext sid value) = binding_deliver i b value c.
Proof.
  intros (_ & Huniq & _) Hb Hc Ho Hi. simpl.
  assert (∀ j bj, j ≠ i → bindings c !! j = Some bj → sid ∉ binding_ids bj)
    as Hforeign.
  { intros j bj Hne Hj Hin. apply Hne. eapply (Huniq j i bj b sid); eauto.
    apply elem_of_binding_ids. auto. }
  apply (for_each_binding_split (binding_on_producer sid value) c i b
           (λ c1, c1 = c) (λ c1, c1 = binding_deliver i b value c));
    try done.
  - by intros c1 ->.
  - intros j bj c1 Hne -> Hj. apply binding_on_producer_foreign. eauto.
  - intros c1 ->. by apply binding_on_producer_inner.
  - intros j bj c1 Hne -> Hj. apply binding_on_producer_foreign.
    destruct (binding_deliver_spec i b value c) as (Hbs & _).
    rewrite Hbs, list_lookup_insert_ne in Hj by done. eauto.
Qed.

Lemma trigger_loop_resubscribes key i b value (c0 : Container) :
  bindings c0 !! i = Some b →
  bind_closed b = false → bind_key b = key → bind_latest b = Some value →
  let c' := for_each_binding (binding_on_trigger key) c0 in
  ∃ sid, next_sub c0 ≤ sid
    ∧ bindings c' !! i = Some (resubscribed b sid value)
    ∧ (sid, bind_source b) ∈ subscribed c'.
Proof.
  intros Hb Hc Hk Hl c'. subst c'.
  apply (for_each_binding_split (binding_on_trigger key) c0 i b
           (λ c1, grows c0 c1 ∧ bindings c1 !! i = Some b)
           (λ c1, ∃ sid, next_sub c0 ≤ sid
              ∧ bindings c1 !! i = Some (resubscribed b sid value)
              ∧ (sid, bind_source b) ∈ subscribed c1)).
  - done.
  - split; [apply grows_refl | done].
  - by intros c1 [_ ?].
  - intros j bj c1 Hne [Hg Hi] Hj.
    pose proof (binding_on_trigger_turn key j bj c1) as Hturn. split.
    + eapply grows_trans; [exact Hg | apply Hturn].
    + by rewrite (turn_other j i bj c1 _ Hturn).
  - intros c1 [Hg Hi].
    destruct (binding_on_trigger_ready key i b value c1 Hc Hk Hl)
      as (Hbs & Hs & _).
    destruct Hg as (Hn & _).
    exists (next_sub c1). split; [done|]. split.
    { rewrite Hbs. apply list_lookup_insert_eq. by eapply lookup_lt_Some. }
    rewrite Hs. apply elem_of_app. right. by left.
  - intros j bj c1 Hne (sid & Hn & Hi & Hin) Hj.
    pose proof (binding_on_trigger_turn key j bj c1) as Hturn.
    exists sid. split; [done|]. split.
    { by rewrite (turn_other j i bj c1 _ Hturn). }
    destruct Hturn as [(_ & Hs & _) _].
    eapply elem_of_prefix; [exact Hin | exact Hs].
Qed.

Lemma insert_replays (key : string) (v : JSValue) (vs : list JSValue)
    (s : State) :
  <[key := v]> (foldl (λ s w, <[key := w]> s) s vs) = <[key := v]> s.
Proof.
  revert s. induction vs as [|w vs IH]; intros s; simpl; [done|].
  by rewrite IH, insert_insert_eq.
Qed.

(** The turn of one binding in the loop of [trigger]: its replay, if it has
    one, is patched into the state. *)
Lemma binding_on_trigger_pushes key i b (c : Container) (s : State) :
  state_value c = Some s →
  let c' := binding_on_trigger key i b c in
  state_pushes c'
  = state_pushes c ++ ((λ v, <[key := v]> s) <$> replayed_values key [b])
  ∧ state_value c'
    = Some (foldl (λ s v, <[key := v]> s) s (replayed_values key [b])).
Proof.
  intros Hv c'. subst c'. unfold replayed_values, binding_on_trigger. simpl.
  destruct (bind_closed b) eqn:Hc; simpl; [by rewrite app_nil_r|].
  destruct (String.eqb_spec (bind_key b) key) as [Hk|_]; simpl;
    [|by rewrite app_nil_r].
  set (b1 := mkBinding _ _ _ _ _ _ _ _).
  destruct (bind_latest b) as [value|] eqn:Hl; simpl.
  - destruct (patch_from_stream_set_binding {[bind_key b := value]} i b1 c)
      as [Hsv Hsp].
    destruct (patch_from_stream_initialized {[bind_key b := value]} s c Hv)
      as (Hpv & Hpp & _).
    by rewrite Hsp, Hsv, Hpv, Hpp, patch_newState_singleton, Hk.
  - by rewrite app_nil_r.
Qed.

Lemma replayed_values_app (key : string) (l1 l2 : list Binding) :
  replayed_values key (l1 ++ l2)
  = replayed_values key l1 ++ replayed_values key l2.
Proof. apply omap_app. Qed.

(** The loop of [trigger] pushes one state per replay: the state before the
    call with the field set to the replayed value. *)
Lemma trigger_loop_pushes key (c0 : Container) (s : State) :
  state_value c0 = Some s →
  let c' := for_each_binding (binding_on_trigger key) c0 in
  state_pushes c'
  = state_pushes c0
    ++ ((λ v, <[key := v]> s) <$> replayed_values key (bindings c0))
  ∧ state_value c'
    = Some (foldl (λ s v, <[key := v]> s) s
              (replayed_values key (bindings c0))).
Proof.
  intros Hv c'. subst c'. unfold for_each_binding.
  set (F := λ (c : Container) (i : nat),
         match bindings c !! i with
         | Some b => binding_on_trigger key i b c
         | None => c
         end).
  assert (∀ n, n ≤ length (bindings c0) →
            state_pushes (foldl F c0 (seq 0 n))
            = state_pushes c0
              ++ ((λ v, <[key := v]> s)
                    <$> replayed_values key (take n (bindings c0)))
            ∧ state_value (foldl F c0 (seq 0 n))
              = Some (foldl (λ s v, <[key := v]> s) s
                        (replayed_values key (take n (bindings c0))))
            ∧ ∀ j, n ≤ j →
                bindings (foldl F c0 (seq 0 n)) !! j = bindings c0 !! j)
    as Hgen.
  { induction n as [|n IH]; intros Hn.
    - simpl. by rewrite app_nil_r.
    - destruct IH as (Hp & Hs & Hb); [lia|].
      rewrite seq_S, foldl_app. simpl.
      revert Hp Hs Hb. generalize (foldl F c0 (seq 0 n)). intros c1 Hp Hs Hb.
      destruct (lookup_lt_is_Some_2 (bindings c0) n) as [b Hbn]; [lia|].
      rewrite (take_S_r _ _ _ Hbn), replayed_values_app, fmap_app, foldl_app.
      unfold F. rewrite (Hb n) by lia. rewrite Hbn.
      destruct (binding_on_trigger_pushes key n b c1 _ Hs) as [Hp' Hs'].
      rewrite Hp', Hs', Hp, <- app_assoc. split_and!.
      + do 2 f_equal. apply list_fmap_ext. intros j v _. simpl.
        apply insert_replays.
      + done.
      + intros j Hj.
        rewrite (turn_other n j b c1 _ (binding_on_trigger_turn key n b c1))
          by lia.
        apply Hb. lia. }
  destruct (Hgen (length (bindings c0))) as (Hp & Hs & _); [done|].
  by rewrite take_ge in Hp, Hs.
Qed.

(** [trigger] on a registered key, the binding [i] having a value to
    replay. *)
Lemma trigger_replays (key : string) (r : ReplaySubject) (c : Container)
    (i : nat) (b : Binding) (value : JSValue) :
  ids_wf c → triggers c !! key = Some r →
  bindings c !! i = Some b →
  bind_closed b = false → bind_key b = key → bind_latest b = Some value →
  ∃ c' sid,
    trigger key c = Ok c'
    ∧ ids_wf c'
    ∧ bindings c' !! i = Some (resubscribed b sid value)
    ∧ bind_outer b ≠ sid
    ∧ (∀ source, (sid, source) ∉ subscribed c)
    ∧ (sid, bind_source b) ∈ subscribed c'.
Proof.
  intros Hwf Hr Hb Hc Hk Hl.
  pose proof Hwf as (Hbound & Huniq & Hsubs & Hfired).
  destruct (Hbound i b Hb) as (_ & _ & Hids).
  set (c0 := with_triggers (<[key := rs_next r]> (triggers c)) c).
  destruct (trigger_loop_resubscribes key i b value c0 Hb Hc Hk Hl)
    as (sid & Hsid & Hi & Hin).
  assert (trigger key c
          = Ok (for_each_binding (binding_on_trigger key) c0)) as Htrigger.
  { unfold trigger. by rewrite Hr. }
  eexists _, sid. split; [exact Htrigger|]. simpl in Hsid. split_and!.
  - by eapply trigger_ids_wf.
  - done.
  - assert (bind_outer b < next_sub c) as Hlt
      by (apply Hids, elem_of_binding_ids; auto).
    lia.
  - intros source Hin'. specialize (Hsubs _ _ Hin'). lia.
  - done.
Qed.

(** What [trigger] pushes on an initialised container. *)
Lemma trigger_pushes (key : string) (c c' : Container) (s : State) :
  trigger key c = Ok c' → state_value c = Some s →
  state_pushes c'
  = state_pushes c
    ++ ((λ v, <[key := v]> s) <$> replayed_values key (bindings c))
  ∧ state_value c'
    = Some (foldl (λ s v, <[key := v]> s) s
              (replayed_values key (bindings c))).
Proof.
  unfold trigger. destruct (triggers c !! key) as [r|];
    [|by destruct (inherited key)].
  intros [= <-] Hv.
  exact (trigger_loop_pushes key
           (with_triggers (<[key := rs_next r]> (triggers c)) c) s Hv).
Qed.

Lemma elem_of_replayed_values (key : string) (bs : list Binding) (i : nat)
    (b : Binding) (value : JSValue) :
  bs !! i = Some b → bind_closed b = false → bind_key b = key →
  bind_latest b = Some value →
  value ∈ replayed_values key bs.
Proof.
  intros Hb Hc Hk Hl. unfold replayed_values. apply list_elem_of_omap.
  exists b. split; [by eapply list_elem_of_lookup_2|].
  by rewrite Hc, Hk, String.eqb_refl.
Qed.

(** C4, the claim as stated fails.  [combineLatest] holds back until the
    producer has produced its first value, so a trigger fired before that
    subscribes to nothing and replays nothing.  What is replayed is the
    latest value of the subscription [connect] took, not the latest value
    the container has from the producer: where the producer serves each
    subscription on its own and the subscription of the last resubscription
    has got further (here to 2), the replay takes the field back (to 1).
    And a binding that disposal or an error of its producer has ended is
    left alone by a firing. *)
Lemma trigger_replay_is_not_as_stated :
  (let c := run [EInitialize {["a" := VNum 0]} None; EConnect [("x", 7)]]
              new_container in
   ∃ c', trigger "x" c = Ok c'
     ∧ rs_fired <$> triggers c !! "x" = Some 1
     ∧ rs_fired <$> triggers c' !! "x" = Some 2
     ∧ subscribed c' = subscribed c
     ∧ bind_inner <$> bindings c' = [None]
     ∧ bind_emitted <$> bindings c' = [[]]
     ∧ state_pushes c' = state_pushes c)
  ∧ (let c := run [EInitialize {["a" := VNum 0]} None; EConnect [("x", 7)];
                   EProducerNext 0 (VNum 1); EProducerNext 1 (VNum 2)]
                new_container in
     ∃ c', trigger "x" c = Ok c'
       ∧ snapshot c = Ok {["a" := VNum 0; "x" := VNum 2]}
       ∧ bind_emitted <$> bindings c = [[VNum 1; VNum 2]]
       ∧ snapshot c' = Ok {["a" := VNum 0; "x" := VNum 1]}
       ∧ bind_emitted <$> bindings c' = [[VNum 1; VNum 2; VNum 1]])
  ∧ (let c := run [EInitialize {["a" := VNum 0]} None; EConnect [("x", 7)];
                   EProducerNext 0 (VNum 1); EDestroy] new_container in
     ∃ c', trigger "x" c = Ok c'
       ∧ subscribed c' = subscribed c
       ∧ bind_emitted <$> bindings c' = [[VNum 1]]
       ∧ state_pushes c' = state_pushes c)
  ∧ (let c := run [EInitialize {["a" := VNum 0]} None; EConnect [("x", 7)];
                   EProducerNext 0 (VNum 1); EProducerError 0] new_container in
     ∃ c', trigger "x" c = Ok c'
       ∧ unhandled c = [ProducerFailed]
       ∧ subscribed c' = subscribed c
       ∧ bind_emitted <$> bindings c' = [[VNum 1]]
       ∧ state_pushes c' = state_pushes c).
Proof.
  split_and!.
  all: eexists; split; [vm_compute; reflexivity|].
  all: split_and!; vm_compute; reflexivity.
Qed.

(** C4, as amended: for a live binding that [connect] created, one that
    neither disposal nor an error of its producer has ended, and that has
    received a producer value on the subscription [connect] took, every
    firing of the trigger channel of its field makes the binding take a
    fresh subscription to the field's producer and hand the latest value
    received on the subscription of [connect] to the subscriber at once,
    which patches it into the field: the state pushed for it is the state
    before the call with the field set to that value, and the firing pushes
    one such state per replay and nothing else.  A value the producer then
    sends on the fresh subscription is handed on, and patched into the
    field, as well. *)
Theorem trigger_resubscribes_and_replays (es : list Event) (i : nat)
    (b : Binding) (value : JSValue) :
  bindings (run es new_container) !! i = Some b →
  bind_closed b = false →
  bind_latest b = Some value →
  ∃ c' sid,
    trigger (bind_key b) (run es new_container) = Ok c'
    ∧ bindings c' !! i = Some (resubscribed b sid value)
    ∧ (∀ source, (sid, source) ∉ subscribed (run es new_container))
    ∧ (sid, bind_source b) ∈ subscribed c'
    ∧ (∀ s, state_value (run es new_container) = Some s →
         <[bind_key b := value]> s
         ∈ drop (length (state_pushes (run es new_container))) (state_pushes c')
         ∧ state_pushes c'
           = state_pushes (run es new_container)
             ++ ((λ v, <[bind_key b := v]> s)
                   <$> replayed_values (bind_key b)
                         (bindings (run es new_container))))
    ∧ ∀ w, ∃ b'',
        bindings (step c' (EProducerNext sid w)) !! i = Some b''
        ∧ bind_inner b'' = Some sid
        ∧ bind_emitted b'' = bind_emitted b ++ [value; w]
        ∧ ∀ s', state_value c' = Some s' →
            state_value (step c' (EProducerNext sid w))
            = Some (<[bind_key b := w]> s').
Proof.
  intros Hb Hc Hl.
  pose proof (run_ids_wf es) as Hwf.
  set (c := run es new_container) in *.
  pose proof Hwf as (Hbound & _).
  destruct (Hbound i b Hb) as (_ & [r Hr] & _).
  destruct (trigger_replays (bind_key b) r c i b value Hwf Hr Hb Hc eq_refl Hl)
    as (c' & sid & Htrigger & Hwf' & Hi & Houter & Hfresh & Hin).
  exists c', sid. split_and!; try done.
  - intros s Hv. destruct (trigger_pushes _ _ _ s Htrigger Hv) as [Hp _].
    split; [|done]. rewrite Hp, drop_app_length.
    apply list_elem_of_fmap. exists value. split; [done|].
    by eapply elem_of_replayed_values.
  - intros w.
    rewrite (producer_next_inner sid w i (resubscribed b sid value) c')
      by done.
    destruct (binding_deliver_spec i (resubscribed b sid value) w c')
      as (Hbs & _ & _ & Hv & _).
    eexists. split.
    { rewrite Hbs. apply list_lookup_insert_eq. by eapply lookup_lt_Some. }
    split; [reflexivity|]. split; [simpl; by rewrite <- app_assoc|].
    intros s' Hs'. rewrite Hv.
    change (bind_key (resubscribed b sid value)) with (bind_key b).
    destruct (patch_from_stream_initialized {[bind_key b := w]} s' c' Hs')
      as (-> & _). by rewrite patch_newState_singleton.
Qed.

Lemma trigger_resubscribes_and_replays_witness :
  ∃ c' sid,
    trigger "x"
      (run [EInitialize {["a" := VNum 0]} None; EConnect [("x", 7)];
            EProducerNext 0 (VNum 5)] new_container) = Ok c'
    ∧ bindings c' !! 0
      = Some (mkBinding "x" 7 0 true (Some (VNum 5)) (Some sid) false
                [VNum 5; VNum 5])
    ∧ (sid, 7) ∈ subscribed c'.
Proof.
  destruct (trigger_resubscribes_and_replays
              [EInitialize {["a" := VNum 0]} None; EConnect [("x", 7)];
               EProducerNext 0 (VNum 5)]
              0 (mkBinding "x" 7 0 true (Some (VNum 5)) (Some 1) false [VNum 5])
              (VNum 5))
    as (c' & sid & Ht & Hb & _ & Hin & _).
  - vm_compute. reflexivity.
  - reflexivity.
  - reflexivity.
  - exists c', sid. split; [exact Ht|]. split; [exact Hb | exact Hin].
Defined.

(** C9: the code departs from the claim.  The registry is a plain object
    and the guards of [trigger] and [connect], which are there to tell a
    registered key from an unregistered one, read it through its prototype
    chain.  Under a name inherited from [Object.prototype] the guard of
    [trigger] finds a built-in, so with nothing connected the call ends in a
    TypeError and not in the NoTriggerRegistered error; and [connect] with
    such a key creates no registry entry, binds nothing and leaves a
    TypeError unhandled, so that [trigger] fails the same way after it. *)
Lemma trigger_of_inherited_name :
  existsb (connects "constructor") [] = false
  ∧ trigger "constructor" new_container = Throw TypeError
  ∧ (let c := run [EConnect [("constructor", 7)]] new_container in
     existsb (connects "constructor") [EConnect [("constructor", 7)]] = true
     ∧ triggers c !! "constructor" = None
     ∧ bindings c = []
     ∧ subscribed c = []
     ∧ unhandled c = [TypeError]
     ∧ trigger "constructor" c = Throw TypeError).
Proof.
  split; [reflexivity|]. split; [vm_compute; reflexivity|].
  cbv zeta. split_and!; vm_compute; reflexivity.
Qed.

(** X18: for every field name that is not a name inherited from
    [Object.prototype], on a container that started fresh, [trigger(key)]
    throws the NoTriggerRegistered error exactly when no [connect] call so
    far had [key] among the keys of its argument; otherwise it fires the
    trigger channel of [key]: the channel has one more firing and holds the
    signal for late subscribers, every live binding of [key] that has a
    producer value takes a fresh subscription on its producer and replays
    that value, and one state per replay is pushed, the state before the
    call with the field set to the replayed value.  The registry has an
    entry for [key] exactly when such a [connect] call happened, and no later
    event removes an entry. *)
Theorem trigger_registered_iff_connected (es : list Event) (key : string) :
  inherited key = false →
  (trigger key (run es new_container) = Throw NoTriggerRegistered
   ↔ existsb (connects key) es = false)
  ∧ (is_Some (triggers (run es new_container) !! key)
     ↔ existsb (connects key) es = true)
  ∧ (existsb (connects key) es = true →
     ∃ c' r,
       trigger key (run es new_container) = Ok c'
       ∧ triggers (run es new_container) !! key = Some r
       ∧ triggers c' = <[key := rs_next r]> (triggers (run es new_container))
       ∧ (∀ i b value,
            bindings (run es new_container) !! i = Some b →
            bind_closed b = false → bind_key b = key →
            bind_latest b = Some value →
            ∃ sid, bindings c' !! i = Some (resubscribed b sid value)
              ∧ (∀ source, (sid, source) ∉ subscribed (run es new_container))
              ∧ (sid, bind_source b) ∈ subscribed c')
       ∧ (∀ s, state_value (run es new_container) = Some s →
            state_pushes c'
            = state_pushes (run es new_container)
              ++ ((λ v, <[key := v]> s)
                    <$> replayed_values key (bindings (run es new_container)))))
  ∧ (∀ es', is_Some (triggers (run es new_container) !! key) →
            is_Some (triggers (run es' (run es new_container)) !! key)).
Proof.
  intros Hkey. pose proof (run_triggers es key) as Hiff.
  assert (is_Some (triggers (run es new_container) !! key)
          ↔ existsb (connects key) es = true) as Hreg.
  { rewrite Hiff. intuition. }
  split_and!.
  - rewrite <- not_true_iff_false, <- Hreg. unfold trigger. rewrite Hkey.
    destruct (triggers (run es new_container) !! key) as [r|].
    + split; [done|]. intros H. destruct H. eauto.
    + split; [|done]. intros _ [? ?]. done.
  - done.
  - intros Hc. apply Hreg in Hc as [r Hr].
    destruct (trigger_fires key r _ Hr) as (c' & Hok & Ht).
    exists c', r. split_and!; try done.
    + intros i b value Hb Hcl Hk Hl.
      destruct (trigger_replays key r _ i b value (run_ids_wf es) Hr Hb Hcl Hk Hl)
        as (c'' & sid & Hok' & _ & Hi & _ & Hfresh & Hin).
      assert (c'' = c') as -> by congruence. eauto.
    + intros s Hv. by destruct (trigger_pushes _ _ _ s Hok Hv).
  - intros es' Hsome. rewrite <- run_app. apply run_triggers.
    rewrite existsb_app. apply Hiff in Hsome as [-> ?]. done.
Qed.

Lemma trigger_registered_iff_connected_witness :
  ∃ c' r,
    trigger "x"
      (run [EInitialize {["a" := VNum 0]} None; EConnect [("x", 7)];
            EProducerNext 0 (VNum 5)] new_container) = Ok c'
    ∧ triggers
        (run [EInitialize {["a" := VNum 0]} None; EConnect [("x", 7)];
              EProducerNext 0 (VNum 5)] new_container) !! "x" = Some r
    ∧ triggers c' !! "x" = Some (rs_next r)
    ∧ (∃ sid, bindings c' !! 0
              = Some (mkBinding "x" 7 0 true (Some (VNum 5)) (Some sid) false
                        [VNum 5; VNum 5]))
    ∧ state_pushes c'
      = [{["a" := VNum 0]}; {["a" := VNum 0; "x" := VNum 5]};
         {["a" := VNum 0; "x" := VNum 5]}].
Proof.
  assert (inherited "x" = false) as Hkey by reflexivity.
  assert (existsb (connects "x")
            [EInitialize {["a" := VNum 0]} None; EConnect [("x", 7)];
             EProducerNext 0 (VNum 5)] = true) as Hcon
    by (vm_compute; reflexivity).
  destruct (trigger_registered_iff_connected
              [EInitialize {["a" := VNum 0]} None; EConnect [("x", 7)];
               EProducerNext 0 (VNum 5)] "x" Hkey)
    as (_ & _ & Hfire & _).
  destruct (Hfire Hcon) as (c' & r & Hok & Hr & Ht & Hbind & Hpush).
  destruct (Hbind 0
              (mkBinding "x" 7 0 true (Some (VNum 5)) (Some 1) false [VNum 5])
              (VNum 5))
    as (sid & Hb & _); [vm_compute; reflexivity | done | done | done |].
  exists c', r. split; [exact Hok|]. split; [exact Hr|].
  split; [by rewrite Ht, lookup_insert_eq|]. split; [by exists sid|].
  rewrite (Hpush {["a" := VNum 0; "x" := VNum 5]}); [|vm_compute; reflexivity].
  vm_compute. reflexivity.
Defined.

(** * Further properties of the code *)

(** ** Names inherited from [Object.prototype] *)

(** X17: under a name inherited from [Object.prototype] the registry never
    has an entry, whatever was connected, and [trigger] ends in a TypeError:
    its guard reads the built-in of that name and lets the call through to
    [next], which the built-in does not have. *)
Theorem trigger_inherited_name_is_type_error (es : list Event) (key : string) :
  inherited key = true →
  triggers (run es new_container) !! key = None
  ∧ trigger key (run es new_container) = Throw TypeError.
Proof.
  intros Hkey.
  assert (triggers (run es new_container) !! key = None) as Hnone.
  { destruct (triggers (run es new_container) !! key) as [r|] eqn:Hr; [|done].
    destruct (proj1 (run_triggers es key)) as [_ H]; [eauto | congruence]. }
  split; [done|]. unfold trigger. by rewrite Hnone, Hkey.
Qed.

(** ** The cell and what subscribers see of it *)

Lemma cell_wf_same (c c' : Container) :
  state_value c' = state_value c → state_pushes c' = state_pushes c →
  cell_wf c → cell_wf c'.
Proof. unfold cell_wf. intros -> ->. done. Qed.

Lemma cell_wf_state_next s (c : Container) : cell_wf (state_next s c).
Proof. unfold cell_wf. simpl. by rewrite last_snoc. Qed.

Lemma cell_wf_patch_from_stream object (c : Container) :
  cell_wf c → cell_wf (patch_from_stream object c).
Proof.
  unfold patch_from_stream, patch. destruct (state_value c) eqn:Hv.
  - intros _. apply cell_wf_state_next.
  - by apply cell_wf_same.
Qed.

Lemma cell_wf_binding_combine i b (c : Container) :
  cell_wf c → cell_wf (binding_combine i b c).
Proof.
  intros Hwf.
  destruct (bind_triggered b) eqn:Ht, (bind_latest b) as [value|] eqn:Hl.
  1: { destruct (binding_combine_ready i b value c Ht Hl) as (_&_&_&Hv&Hp&_).
       eapply cell_wf_same; [exact Hv | exact Hp |].
       by apply cell_wf_patch_from_stream. }
  all: rewrite binding_combine_waiting by auto; by apply (cell_wf_same c).
Qed.

Lemma cell_wf_binding_deliver i b value (c : Container) :
  cell_wf c → cell_wf (binding_deliver i b value c).
Proof.
  intros Hwf. destruct (binding_deliver_spec i b value c) as (_&_&_&Hv&Hp&_).
  eapply cell_wf_same; [exact Hv | exact Hp |].
  by apply cell_wf_patch_from_stream.
Qed.

(** [connect] only registers triggers and subscribes: it pushes nothing. *)
Lemma connect_quiet object (c : Container) :
  state_value (connect object c) = state_value c
  ∧ state_pushes (connect object c) = state_pushes c
  ∧ state_observers (connect object c) = state_observers c.
Proof.
  unfold connect.
  apply (foldl_invariant
           (λ c', state_value c' = state_value c
                  ∧ state_pushes c' = state_pushes c
                  ∧ state_observers c' = state_observers c)); [done|].
  intros a [key source] (Hv & Hp & Ho). unfold connect_key, connect_subscribe.
  destruct (triggers a !! key); [|destruct (inherited key)]; simpl;
    by rewrite Hv, Hp, Ho.
Qed.

Lemma step_cell_wf (c : Container) (e : Event) : cell_wf c → cell_wf (step c e).
Proof.
  intros Hwf.
  destruct e as [state src|object|k|object|key|sid value|sid object| |sid|sid]; simpl.
  - unfold initialize. destruct src; apply (cell_wf_same (state_next state c));
      try done; apply cell_wf_state_next.
  - unfold patch. destruct (state_value c); [apply cell_wf_state_next | done].
  - by apply (cell_wf_same c).
  - destruct (connect_quiet object c) as (Hv & Hp & _). by apply (cell_wf_same c).
  - unfold trigger. destruct (triggers c !! key) as [r|]; [|by destruct (inherited key)].
    apply (for_each_binding_invariant cell_wf); [by apply (cell_wf_same c)|].
    intros i b a Ha _. unfold binding_on_trigger.
    destruct (bind_closed b); [done|]. destruct (String.eqb _ _); [|done].
    by apply cell_wf_binding_combine.
  - apply (for_each_binding_invariant cell_wf); [done|].
    intros i b a Ha _. unfold binding_on_producer.
    destruct (bind_closed b); [done|].
    destruct (_ =? _); [by apply cell_wf_binding_combine|].
    case_bool_decide; [by apply cell_wf_binding_deliver | done].
  - apply (input_next_invariant cell_wf); [done|].
    intros i s a Ha _ _.
    apply (cell_wf_same (patch_from_stream object a)); try done.
    by apply cell_wf_patch_from_stream.
  - unfold ngOnDestroy. destruct (destroy_stopped c); [done|].
    by apply (cell_wf_same c).
  - by apply (cell_wf_same c).
  - by apply (cell_wf_same c).
Qed.

Lemma run_cell_wf (es : list Event) : cell_wf (run es new_container).
Proof.
  induction es as [|e es IH] using rev_ind; [done|].
  rewrite run_snoc. by apply step_cell_wf.
Qed.

(** What a pipeline adds to its log while it is told [gs] is picked, in
    order, from the states [gs] pushes. *)
Lemma observer_signals_log (gs : list Signal) (o : Observer) :
  ∃ l, obs_log (foldl observer_signal o gs) = obs_log o ++ l
    ∧ l `sublist_of` signal_states gs.
Proof.
  revert o. induction gs as [|g gs IH]; intros o; simpl.
  - exists []. by rewrite app_nil_r.
  - destruct (IH (observer_signal o g)) as (l & Hl & Hsub). rewrite Hl.
    destruct g as [s|]; simpl.
    + destruct (observer_next_cases s o)
        as [[_ ->]|[(_ & _ & ->)|(_ & p & _ & _ & ->)]]; simpl.
      * exists l. split; [done|]. by apply sublist_cons.
      * exists (s :: l). split; [by rewrite <- app_assoc|]. by apply sublist_skip.
      * exists l. split; [done|]. by apply sublist_cons.
    + by exists l.
Qed.

Lemma step_logs_in_pushes (c : Container) (e : Event) :
  cell_wf c →
  Forall (λ o, obs_log o `sublist_of` state_pushes c) (state_observers c) →
  Forall (λ o, obs_log o `sublist_of` state_pushes (step c e))
    (state_observers (step c e)).
Proof.
  intros Hcell Hlogs.
  destruct (step_observers_follow c e) as (gs & extra & Ho & Hp).
  assert (Forall (λ o, obs_log o `sublist_of` state_pushes (step c e))
            ((λ o, foldl observer_signal o gs) <$> state_observers c)) as Hold.
  { apply Forall_fmap. eapply Forall_impl; [exact Hlogs|]. intros o Hsub. simpl.
    destruct (observer_signals_log gs o) as (l & -> & Hl). rewrite Hp.
    by apply sublist_app. }
  assert ((∃ k, e = ESubscribe k) ∨ (∀ k, e ≠ ESubscribe k)) as [[k ->]|Hns]
    by (destruct e; eauto).
  - simpl. unfold subscribe. simpl. apply Forall_app. split; [done|].
    apply Forall_singleton. destruct (state_value c) as [s|] eqn:Hv.
    + rewrite observer_next_first by done. simpl.
      apply singleton_sublist_l, last_Some_elem_of. by rewrite <- Hcell.
    + rewrite observer_next_null. apply sublist_nil_l.
  - destruct (step_told c e Hns) as [gs' [Ho' Hp']].
    rewrite Ho', app_nil_r. apply Forall_fmap.
    eapply Forall_impl; [exact Hlogs|]. intros o Hsub. simpl.
    destruct (observer_signals_log gs' o) as (l & -> & Hl). rewrite Hp'.
    by apply sublist_app.
Qed.

Lemma run_logs_in_pushes (es : list Event) :
  Forall (λ o, obs_log o `sublist_of` state_pushes (run es new_container))
    (state_observers (run es new_container)).
Proof.
  induction es as [|e es IH] using rev_ind; [constructor|].
  rewrite run_snoc. apply step_logs_in_pushes; [apply run_cell_wf | done].
Qed.

(** X3: in every reachable container [snapshot] is the state pushed last,
    and what a subscription has received so far are states picked from the
    pushes in push order, each pushed state at most once: nothing is
    invented, reordered or duplicated. *)
Theorem emissions_follow_pushes (es : list Event) (i : nat) (o : Observer) :
  state_observers (run es new_container) !! i = Some o →
  state_value (run es new_container) = last (state_pushes (run es new_container))
  ∧ ∃ l, l `sublist_of` state_pushes (run es new_container)
      ∧ received o = emission (obs_kind o) <$> l.
Proof.
  intros Ho. split; [apply run_cell_wf|]. exists (obs_log o). split; [|done].
  exact (Forall_lookup_1 _ _ _ _ (run_logs_in_pushes es) Ho).
Qed.

(** ** Subscribers are up to date *)

Lemma observer_current_closed cur (o : Observer) :
  obs_closed o = true → observer_current cur o.
Proof. intros Hc Hlive. congruence. Qed.

Lemma observer_next_current s (o : Observer) :
  observer_current (Some s) (observer_next (Some s) o).
Proof.
  destruct (observer_next_cases s o)
    as [[Hc ->]|[(_ & _ & ->)|(_ & p & _ & Hcmp & ->)]].
  - by apply observer_current_closed.
  - intros _ s' [= <-]. exists s. eauto.
  - intros _ s' [= <-]. exists p. eauto.
Qed.

Lemma observer_signals_current (gs : list Signal) (o : Observer)
    (cur : option State) :
  observer_current cur o →
  observer_current (from_option Some cur (last (signal_states gs)))
    (foldl observer_signal o gs).
Proof.
  revert o cur. induction gs as [|g gs IH]; intros o cur Hcur; [done|].
  destruct g as [s|]; simpl.
  - rewrite last_cons.
    specialize (IH (observer_next (Some s) o) (Some s)
                  (observer_next_current s o)).
    by destruct (last (signal_states gs)).
  - apply IH. by apply observer_current_closed.
Qed.

Lemma step_observers_current (c : Container) (e : Event) :
  cell_wf c →
  Forall (observer_current (state_value c)) (state_observers c) →
  Forall (observer_current (state_value (step c e))) (state_observers (step c e)).
Proof.
  intros Hcell Hcur.
  pose proof (step_cell_wf c e Hcell) as Hcell'.
  assert ((∃ k, e = ESubscribe k) ∨ (∀ k, e ≠ ESubscribe k)) as [[k ->]|Hns]
    by (destruct e; eauto).
  - simpl. unfold subscribe. simpl. apply Forall_app. split; [done|].
    apply Forall_singleton. destruct (state_value c) as [s|] eqn:Hv.
    + apply observer_next_current.
    + intros _ s Hs. done.
  - destruct (step_told c e Hns) as [gs [Ho Hp]].
    rewrite Ho, app_nil_r. apply Forall_fmap.
    eapply Forall_impl; [exact Hcur|]. intros o Ho'. simpl.
    unfold cell_wf in Hcell'. rewrite Hcell', Hp, last_app.
    unfold cell_wf in Hcell. rewrite <- Hcell.
    pose proof (observer_signals_current gs o (state_value c) Ho') as H.
    by destruct (last (signal_states gs)).
Qed.

Lemma run_observers_current (es : list Event) :
  Forall (observer_current (state_value (run es new_container)))
    (state_observers (run es new_container)).
Proof.
  induction es as [|e es IH] using rev_ind; [constructor|].
  rewrite run_snoc. apply step_observers_current; [apply run_cell_wf | done].
Qed.

(** X4: once the cell is initialised, a live subscription has received
    something, and what it received last is the state of the snapshot, or a
    state that the comparator of its stream takes for unchanged with
    respect to the snapshot. *)
Theorem live_subscriber_is_up_to_date (es : list Event) (i : nat)
    (o : Observer) (s : State) :
  state_observers (run es new_container) !! i = Some o →
  obs_closed o = false →
  snapshot (run es new_container) = Ok s →
  ∃ p, last (obs_log o) = Some p
    ∧ (p = s ∨ comparator (obs_kind o) p s = true).
Proof.
  intros Ho Hlive Hsnap.
  pose proof (Forall_lookup_1 _ _ _ _ (run_observers_current es) Ho) as Hcur.
  pose proof (Forall_lookup_1 _ _ _ _ (run_observers_wf es) Ho) as Hwf.
  unfold observer_wf in Hwf. rewrite <- Hwf. apply Hcur; [done|].
  unfold snapshot in Hsnap.
  destruct (state_value (run es new_container)); congruence.
Qed.

(** ** [===] *)

Lemma strict_eq_trans (a b c : JSValue) :
  strict_eq a b = true → strict_eq b c = true → strict_eq a c = true.
Proof.
  destruct a, b, c; simpl; try done.
  - intros H1 H2. apply Bool.eqb_prop in H1, H2. subst. apply Bool.eqb_reflx.
  - intros H1%Z.eqb_eq H2%Z.eqb_eq. subst. apply Z.eqb_refl.
  - intros H1%String.eqb_eq H2%String.eqb_eq. subst. apply String.eqb_refl.
  - intros H1%Pos.eqb_eq H2%Pos.eqb_eq. subst. apply Pos.eqb_refl.
  - intros H1%String.eqb_eq H2%String.eqb_eq. subst. apply String.eqb_refl.
Qed.

Lemma strict_eq_nan_l (v : JSValue) : strict_eq VNaN v = false.
Proof. done. Qed.

(** ** What the selection streams suppress and what they never suppress *)

(** X5: a [patch] that leaves every selected field [===] to what the
    current state has there delivers nothing to a live subscription of
    [onlySelectWhen(keys)], or of [select(key)] for [keys = [key]]. *)
Theorem unchanged_selection_is_not_emitted (es : list Event) (i : nat)
    (o : Observer) (keys : list string) (current object : State) :
  state_observers (run es new_container) !! i = Some o →
  obs_closed o = false →
  (obs_kind o = OnlySelectWhen keys
   ∨ ∃ key, obs_kind o = Select key ∧ keys = [key]) →
  state_value (run es new_container) = Some current →
  (∀ key, key ∈ keys →
     strict_eq (prop (field_merge current object) key) (prop current key) = true) →
  ∃ c' o', patch object (run es new_container) = Ok c'
    ∧ state_observers c' !! i = Some o'
    ∧ received o' = received o.
Proof.
  intros Ho Hlive Hkind Hv Hsame.
  assert (comparator (obs_kind o) = keys_comparator keys) as Hcmp.
  { destruct Hkind as [->|(key & -> & ->)]; done. }
  pose proof (Forall_lookup_1 _ _ _ _ (run_observers_current es) Ho) as Hcur.
  destruct (Hcur Hlive current Hv) as (p & Hp & Hrel).
  unfold patch. rewrite Hv, patch_newState_field_merge.
  eexists _, _. split; [done|]. simpl.
  rewrite list_lookup_fmap, Ho. split; [done|].
  rewrite (observer_next_same _ p); [done | done | done |].
  rewrite Hcmp. apply keys_comparator_true. intros key Hin.
  destruct Hrel as [->|Hrel]; [by apply Hsame|].
  rewrite Hcmp in Hrel.
  eapply strict_eq_trans; [by apply Hsame|].
  by eapply keys_comparator_true.
Qed.

Lemma comparator_nan (k : StreamKind) (p s : State) :
  nan_selected k s → comparator k p s = false.
Proof.
  destruct k as [|keys|key]; simpl.
  - intros (key & Hkey). apply not_true_iff_false. intros Hall.
    rewrite state_comparator_true in Hall.
    assert (prop s key = VNaN) as Hnan by (unfold prop; by rewrite Hkey).
    assert (key ∈ dom s) as Hdom by (apply elem_of_dom; eauto).
    specialize (Hall key Hdom). by rewrite Hnan in Hall.
  - intros (key & Hin & Hnan). apply keys_comparator_false.
    exists key. split; [done|]. by rewrite Hnan.
  - intros Hnan. by rewrite Hnan.
Qed.

(** X6: NaN defeats the suppression: a [patch] whose merged state holds
    NaN in a field the stream compares is delivered to every live
    subscription of that stream, even if the patch changes nothing. *)
Theorem nan_field_is_always_emitted (c : Container) (i : nat) (o : Observer)
    (current object : State) :
  state_value c = Some current →
  state_observers c !! i = Some o →
  obs_closed o = false →
  nan_selected (obs_kind o) (field_merge current object) →
  ∃ c' o', patch object c = Ok c'
    ∧ state_observers c' !! i = Some o'
    ∧ received o'
      = received o ++ [emission (obs_kind o) (field_merge current object)].
Proof.
  intros Hv Ho Hlive Hnan. unfold patch. rewrite Hv, patch_newState_field_merge.
  eexists _, _. split; [done|]. simpl.
  rewrite list_lookup_fmap, Ho. split; [done|].
  destruct (observer_next_cases (field_merge current object) o)
    as [[Hc _]|[(_ & _ & ->)|(_ & p & _ & Hcmp & _)]].
  - congruence.
  - unfold received. simpl. by rewrite fmap_app.
  - by rewrite (comparator_nan _ p _ Hnan) in Hcmp.
Qed.

(** ** No value twice in a row *)

Lemma observer_signal_adjacent (o : Observer) (g : Signal) :
  observer_wf o →
  adjacent_changed (comparator (obs_kind o)) (obs_log o) →
  adjacent_changed (comparator (obs_kind (observer_signal o g)))
    (obs_log (observer_signal o g)).
Proof.
  intros Hwf Hadj. destruct g as [s|]; simpl; [|done].
  destruct (observer_next_cases s o)
    as [[_ ->]|[(_ & Hwhy & ->)|(_ & p & _ & _ & ->)]]; simpl; [done| |done].
  intros j s1 s2 H1 H2.
  destruct (decide (S j < length (obs_log o))) as [Hlt|Hge].
  - rewrite lookup_app_l in H1 by lia. rewrite lookup_app_l in H2 by lia.
    by eapply Hadj.
  - pose proof (lookup_lt_Some _ _ _ H2) as Hlen. rewrite length_app in Hlen.
    simpl in Hlen. assert (S j = length (obs_log o)) as Hj by lia.
    rewrite lookup_app_l in H1 by lia.
    rewrite lookup_app_r, Hj, Nat.sub_diag in H2 by lia.
    injection H2 as <-.
    assert (last (obs_log o) = Some s1) as Hlast.
    { rewrite last_lookup, <- Hj. done. }
    unfold observer_wf in Hwf. rewrite <- Hwf in Hlast.
    destruct Hwhy as [Hnone|(p & Hp & Hcmp)]; congruence.
Qed.

Lemma observer_signals_adjacent (gs : list Signal) (o : Observer) :
  observer_wf o →
  adjacent_changed (comparator (obs_kind o)) (obs_log o) →
  adjacent_changed (comparator (obs_kind (foldl observer_signal o gs)))
    (obs_log (foldl observer_signal o gs)).
Proof.
  revert o. induction gs as [|g gs IH]; intros o Hwf Hadj; [done|].
  simpl. apply IH; [by apply observer_signal_wf | by apply observer_signal_adjacent].
Qed.

Lemma run_observers_adjacent (es : list Event) :
  Forall (λ o, adjacent_changed (comparator (obs_kind o)) (obs_log o))
    (state_observers (run es new_container)).
Proof.
  induction es as [|e es IH] using rev_ind; [constructor|].
  rewrite run_snoc. set (c := run es new_container) in *.
  pose proof (run_observers_wf es) as Hwf. fold c in Hwf.
  assert ((∃ k, e = ESubscribe k) ∨ (∀ k, e ≠ ESubscribe k)) as [[k ->]|Hns]
    by (destruct e; eauto).
  - simpl. unfold subscribe. simpl. apply Forall_app. split; [done|].
    apply Forall_singleton.
    destruct (state_value c) as [s|].
    + apply (observer_signal_adjacent (new_observer k) (SigNext s)); [done|].
      intros j s1 s2 H1. simpl in H1. by rewrite lookup_nil in H1.
    + rewrite observer_next_null. intros j s1 s2 H1. simpl in H1. by rewrite lookup_nil in H1.
  - destruct (step_told c e Hns) as [gs [Ho _]].
    rewrite Ho, app_nil_r. apply Forall_fmap, Forall_forall.
    intros o Hin. simpl. apply observer_signals_adjacent.
    + by eapply (proj1 (Forall_forall _ _) Hwf).
    + by eapply (proj1 (Forall_forall _ _) IH).
Qed.

(** X1: [select(key)], and so any entry of [pick], never delivers two
    values in a row that are [===]. *)
Theorem select_never_repeats_a_value (es : list Event) (i j : nat)
    (o : Observer) (key : string) (v1 v2 : JSValue) :
  state_observers (run es new_container) !! i = Some o →
  obs_kind o = Select key →
  received o !! j = Some (EmitValue v1) →
  received o !! S j = Some (EmitValue v2) →
  strict_eq v2 v1 = false.
Proof.
  intros Ho Hkind H1 H2.
  pose proof (Forall_lookup_1 _ _ _ _ (run_observers_adjacent es) Ho) as Hadj.
  unfold received in H1, H2. rewrite Hkind, list_lookup_fmap in H1, H2.
  destruct (obs_log o !! j) as [s1|] eqn:Hs1; [|done].
  destruct (obs_log o !! S j) as [s2|] eqn:Hs2; [|done].
  simpl in H1, H2. injection H1 as <-. injection H2 as <-.
  specialize (Hadj j s1 s2 Hs1 Hs2). rewrite Hkind in Hadj. simpl in Hadj.
  by rewrite andb_true_r in Hadj.
Qed.

(** X7: subscribing to any of the selection streams adds one live
    subscription, also after disposal; it is handed the current state at
    once (projected to the field for [select]), nothing while the cell is
    still [null]; the cell itself is not touched. *)
Theorem subscribe_replays_current_state (c : Container) (k : StreamKind) :
  ∃ o, state_observers (subscribe k c) = state_observers c ++ [o]
    ∧ obs_kind o = k ∧ obs_closed o = false
    ∧ received o = match state_value c with
                   | Some s => [emission k s]
                   | None => []
                   end
    ∧ snapshot (subscribe k c) = snapshot c
    ∧ state_pushes (subscribe k c) = state_pushes c.
Proof.
  exists (observer_next (state_value c) (new_observer k)).
  split; [done|]. destruct (state_value c) as [s|] eqn:Hv.
  - rewrite observer_next_first by done. done.
  - rewrite observer_next_null. done.
Qed.

(** ** Patches compose *)

Lemma field_merge_lookup (s partial : State) (key : string) :
  field_merge s partial !! key
  = match partial !! key with
    | Some v => Some v
    | None => s !! key
    end.
Proof.
  unfold field_merge. rewrite lookup_merge.
  by destruct (s !! key), (partial !! key).
Qed.

Lemma field_merge_twice (s p q : State) :
  field_merge (field_merge s p) q = field_merge s (q ∪ p).
Proof.
  apply map_eq. intros key. rewrite !field_merge_lookup, lookup_union.
  by destruct (q !! key), (p !! key).
Qed.

(** X8: for the snapshot, [patch(p)] followed by [patch(q)] is one
    [patch] with the fields of [q] laid over those of [p]; so patching the
    same object twice is patching it once, and [patch({})] keeps the
    snapshot.  On an uninitialised container all of them fail alike. *)
Theorem patch_twice_is_patch_of_union (c : Container) (p q : State) :
  snapshot (run [EPatch p; EPatch q] c) = snapshot (run [EPatch (q ∪ p)] c)
  ∧ snapshot (run [EPatch p; EPatch p] c) = snapshot (run [EPatch p] c)
  ∧ snapshot (run [EPatch ∅] c) = snapshot c.
Proof.
  unfold snapshot, run. simpl. unfold patch.
  destruct (state_value c) as [s|] eqn:Hv; simpl; rewrite ?Hv; [|done].
  rewrite !patch_newState_field_merge, !field_merge_twice.
  split_and!; try done.
  - by rewrite (idemp_L (∪) p).
  - f_equal. apply map_eq. intros key.
    by rewrite field_merge_lookup, lookup_empty.
Qed.

(** ** [connect] *)

Lemma connect_key_registry (c : Container) (entry : string * Producer)
    (key : string) :
  triggers (connect_key c entry) !! key
  = match triggers c !! key with
    | Some r => Some r
    | None =>
        if inherited key then None
        else if decide (key = entry.1) then Some (rs_next rs_new) else None
    end.
Proof.
  destruct entry as [k source]. unfold connect_key, connect_subscribe. simpl.
  destruct (triggers c !! k) as [r|] eqn:Hk;
    [|destruct (inherited k) eqn:Hin]; simpl.
  - destruct (triggers c !! key) eqn:Hkey; [done|].
    destruct (inherited key); [done|].
    rewrite decide_False; [done|]. intros ->. congruence.
  - destruct (triggers c !! key) eqn:Hkey; [done|].
    destruct (inherited key) eqn:Hin'; [done|].
    rewrite decide_False; [done|]. intros ->. congruence.
  - rewrite lookup_insert. destruct (decide (k = key)) as [->|Hne].
    + by rewrite Hk, Hin, decide_True.
    + destruct (triggers c !! key); [done|].
      destruct (inherited key); [done|]. by rewrite decide_False.
Qed.

(** X10: [connect(object)] leaves the trigger of an already registered
    key as it is, without firing it again; a key of [object] that has no
    trigger yet and is not a name inherited from [Object.prototype] gets
    one that has fired exactly once; all other keys stay unregistered, the
    inherited names among them. *)
Theorem connect_registers_new_keys_only (object : list (string * Producer))
    (c : Container) (key : string) :
  triggers (connect object c) !! key
  = match triggers c !! key with
    | Some r => Some r
    | None =>
        if inherited key then None
        else if decide (key ∈ object.*1)
             then Some (mkReplay (Some ()) 1) else None
    end.
Proof.
  unfold connect. revert c.
  induction object as [|entry l IH]; intros c; simpl.
  - destruct (triggers c !! key); [done|]. destruct (inherited key); [done|].
    destruct (decide (key ∈ [])) as [H|_]; [by apply elem_of_nil in H | done].
  - rewrite IH, connect_key_registry.
    destruct (triggers c !! key); [done|]. destruct (inherited key); [done|].
    destruct (decide (key = entry.1)) as [->|Hne].
    + rewrite decide_True; [done | by left].
    + destruct (decide (key ∈ l.*1)) as [Hin|Hnin].
      * rewrite decide_True; [done | by right].
      * rewrite decide_False; [done|]. intros [?|?]%elem_of_cons; done.
Qed.

Lemma run_registry_wf (es : list Event) : registry_wf (run es new_container).
Proof.
  intros key r Hr. split.
  - apply (run_triggers es key). eauto.
  - destruct (run_ids_wf es) as (_ & _ & _ & Hfired). eauto.
Qed.

(** One round of the [forEach] of [connect]. *)
Lemma connect_key_exact (c : Container) (entry : string * Producer) :
  registry_wf c →
  let c' := connect_key c entry in
  registry_wf c'
  ∧ bindings c' = bindings c ++ (fresh_binding (next_sub c) <$> bindable [entry])
  ∧ subscribed c'
    = subscribed c ++ ((λ e, (next_sub c, e.2)) <$> bindable [entry])
  ∧ next_sub c' = next_sub c + length (bindable [entry])
  ∧ unhandled c'
    = unhandled c
      ++ ((λ _, TypeError) <$> filter (λ e, inherited e.1 = true) [entry]).
Proof.
  intros Hwf c'. subst c'. destruct entry as [key source].
  unfold bindable. rewrite !filter_cons, !filter_nil. simpl.
  unfold connect_key, connect_subscribe.
  destruct (triggers c !! key) as [r|] eqn:Hk.
  - destruct (Hwf key r Hk) as [Hin Hbuf]. simpl.
    rewrite bool_decide_eq_true_2 by done.
    rewrite decide_True by done. rewrite decide_False by congruence.
    simpl. rewrite app_nil_r. split_and!; try done; lia.
  - destruct (inherited key) eqn:Hin.
    + rewrite decide_False by done. rewrite decide_True by done.
      simpl. rewrite !app_nil_r. split_and!; try done; lia.
    + rewrite decide_True by done. rewrite decide_False by done.
      simpl. rewrite lookup_insert_eq. simpl. rewrite app_nil_r.
      split_and!; try done; try lia.
      intros k r. simpl. rewrite lookup_insert.
      case_decide as Hd; [|by apply Hwf].
      subst k. by intros [= <-].
Qed.

Lemma connect_exact (object : list (string * Producer)) (c : Container) :
  registry_wf c →
  bindings (connect object c)
  = bindings c
    ++ imap (λ j, fresh_binding (next_sub c + j)) (bindable object)
  ∧ subscribed (connect object c)
    = subscribed c ++ imap (λ j e, (next_sub c + j, e.2)) (bindable object)
  ∧ next_sub (connect object c) = next_sub c + length (bindable object)
  ∧ unhandled (connect object c)
    = unhandled c
      ++ ((λ _, TypeError) <$> filter (λ e, inherited e.1 = true) object).
Proof.
  unfold connect. revert c.
  induction object as [|entry l IH]; intros c Hwf; simpl.
  - rewrite !app_nil_r. split_and!; try done; lia.
  - destruct (connect_key_exact c entry Hwf) as (Hwf' & Hb & Hs & Hn & Hu).
    destruct (IH _ Hwf') as (Hb' & Hs' & Hn' & Hu').
    rewrite Hb', Hs', Hn', Hu', Hb, Hs, Hn, Hu, <- !app_assoc.
    unfold bindable in *. rewrite !filter_cons, !filter_nil.
    destruct (decide (inherited entry.1 = false)) as [Hin|Hin].
    + rewrite !decide_False by congruence. simpl. rewrite Nat.add_0_r.
      split_and!; [| |lia|done]; do 2 f_equal;
        apply imap_ext; intros j e _; simpl; f_equal; lia.
    + rewrite !decide_True by by destruct (inherited entry.1).
      simpl. rewrite !Nat.add_0_r. split_and!; try done.
Qed.

(** X11: on a container that started fresh, [connect(object)] keeps the
    existing bindings and appends, in the order of the keys of [object],
    exactly one binding for each key that is not a name inherited from
    [Object.prototype]: bound to the producer given for the key, on the
    next subscriptions the container hands out, in this order, live, with no
    producer value and no inner subscription yet.  For each inherited name
    among the keys nothing is bound and one TypeError goes unhandled.
    [connect] by itself pushes no state and delivers nothing. *)
Theorem connect_adds_one_binding_per_key (es : list Event)
    (object : list (string * Producer)) :
  let c := run es new_container in
  bindings (connect object c)
  = bindings c ++ imap (λ j, fresh_binding (next_sub c + j)) (bindable object)
  ∧ subscribed (connect object c)
    = subscribed c ++ imap (λ j e, (next_sub c + j, e.2)) (bindable object)
  ∧ next_sub (connect object c) = next_sub c + length (bindable object)
  ∧ unhandled (connect object c)
    = unhandled c
      ++ ((λ _, TypeError) <$> filter (λ e, inherited e.1 = true) object)
  ∧ snapshot (connect object c) = snapshot c
  ∧ state_pushes (connect object c) = state_pushes c
  ∧ state_observers (connect object c) = state_observers c.
Proof.
  intros c.
  destruct (connect_quiet object c) as (Hv & Hp & Ho).
  destruct (connect_exact object c (run_registry_wf es)) as (Hb & Hs & Hn & Hu).
  unfold snapshot. rewrite Hv. by split_and!.
Qed.

(** ** [trigger] *)

Lemma set_binding_same i b (c : Container) :
  bindings c !! i = Some b → set_binding i b c = c.
Proof.
  intros Hb. unfold set_binding, with_bindings.
  rewrite list_insert_id by done. by destruct c.
Qed.

(** X12: when every binding of [key] is closed or still waits for its
    first producer value, [trigger(key)] succeeds and only counts the
    firing: no subscription is taken, no state pushed, no binding
    changed.  This is the case before the first value and after
    disposal. *)
Theorem trigger_without_value_only_counts (es : list Event) (key : string)
    (r : ReplaySubject) :
  triggers (run es new_container) !! key = Some r →
  (∀ i b, bindings (run es new_container) !! i = Some b → bind_key b = key →
          bind_closed b = true ∨ bind_latest b = None) →
  trigger key (run es new_container)
  = Ok (with_triggers (<[key := rs_next r]> (triggers (run es new_container)))
          (run es new_container)).
Proof.
  intros Hr Hidle. destruct (run_ids_wf es) as (Hbound & _).
  set (c := run es new_container) in *.
  unfold trigger. rewrite Hr. f_equal.
  set (c0 := with_triggers (<[key := rs_next r]> (triggers c)) c).
  apply (for_each_binding_invariant (λ c1, c1 = c0)); [done|].
  intros i b c1 -> Hb. unfold binding_on_trigger.
  destruct (bind_closed b) eqn:Hc; [done|].
  destruct (String.eqb_spec (bind_key b) key) as [Hk|_]; [|done].
  destruct (Hidle i b Hb Hk) as [Hcl|Hl]; [congruence|].
  destruct (Hbound i b Hb) as (Ht & _).
  rewrite binding_combine_waiting by auto.
  apply set_binding_same. rewrite Hb. f_equal.
  destruct b; simpl in *. by subst.
Qed.

Lemma binding_combine_effect i b (c : Container) :
  (∃ b', bindings (binding_combine i b c) = <[i := b']> (bindings c))
  ∧ (state_value (binding_combine i b c) = state_value c
     ∨ ∃ v, state_value (binding_combine i b c)
            = state_value (patch_from_stream {[bind_key b := v]} c)).
Proof.
  destruct (bind_triggered b) eqn:Ht, (bind_latest b) as [value|] eqn:Hl.
  1: { destruct (binding_combine_ready i b value c Ht Hl) as (Hb&_&_&Hv&_).
       split; [eauto|]. right. eauto. }
  all: rewrite binding_combine_waiting by auto; split; [by exists b | by left].
Qed.

(** X13: [trigger(key)] can change no field of the state other than
    [key], and no binding of another key. *)
Theorem trigger_touches_only_its_field (c c' : Container) (key : string)
    (s : State) :
  trigger key c = Ok c' →
  state_value c = Some s →
  (∃ s', snapshot c' = Ok s' ∧ ∀ f, f ≠ key → s' !! f = s !! f)
  ∧ (∀ i b, bindings c !! i = Some b → bind_key b ≠ key →
            bindings c' !! i = Some b).
Proof.
  unfold trigger. destruct (triggers c !! key) as [r|]; [|by destruct (inherited key)].
  intros [= <-] Hv.
  set (c0 := with_triggers (<[key := rs_next r]> (triggers c)) c).
  apply (for_each_binding_invariant
           (λ c1, (∃ s', snapshot c1 = Ok s' ∧ ∀ f, f ≠ key → s' !! f = s !! f)
                  ∧ (∀ i b, bindings c !! i = Some b → bind_key b ≠ key →
                            bindings c1 !! i = Some b))).
  { split; [|done]. exists s. unfold snapshot. simpl. by rewrite Hv. }
  intros j bj c1 [(s1 & Hs1 & Hframe) Hother] Hj. unfold binding_on_trigger.
  destruct (bind_closed bj); [eauto|].
  destruct (String.eqb_spec (bind_key bj) key) as [Hk|_]; [|eauto].
  set (b1 := mkBinding _ _ _ _ _ _ _ _).
  destruct (binding_combine_effect j b1 c1) as [(b' & Hb') Hstate].
  assert (state_value c1 = Some s1) as Hv1.
  { unfold snapshot in Hs1. destruct (state_value c1); congruence. }
  split.
  - destruct Hstate as [Hsame|(v & Hpatched)].
    + exists s1. unfold snapshot. rewrite Hsame, Hv1. done.
    + destruct (patch_from_stream_initialized {[bind_key b1 := v]} s1 c1 Hv1)
        as (Hv' & _).
      exists (<[key := v]> s1). unfold snapshot.
      rewrite Hpatched, Hv', patch_newState_singleton. simpl. rewrite Hk.
      split; [done|]. intros f Hf. rewrite lookup_insert_ne by done. auto.
  - intros i b Hb Hne. rewrite Hb'.
    rewrite list_lookup_insert_ne; [auto|].
    intros ->. specialize (Hother _ _ Hb Hne). congruence.
Qed.

(** ** Values of a bound producer *)

Lemma binding_on_producer_outer value i b (c : Container) :
  bind_closed b = false →
  binding_on_producer (bind_outer b) value i b c
  = binding_combine i
      (mkBinding (bind_key b) (bind_source b) (bind_outer b) (bind_triggered b)
         (Some value) (bind_inner b) (bind_closed b) (bind_emitted b)) c.
Proof.
  intros Hc. unfold binding_on_producer. by rewrite Hc, Nat.eqb_refl.
Qed.

(** A producer value for the outer subscription of binding [i] reaches
    the [combineLatest] of that binding and nothing else. *)
Lemma producer_next_outer value i b (c : Container) :
  ids_wf c → bindings c !! i = Some b → bind_closed b = false →
  step c (EProducerNext (bind_outer b) value)
  = binding_combine i
      (mkBinding (bind_key b) (bind_source b) (bind_outer b) (bind_triggered b)
         (Some value) (bind_inner b) (bind_closed b) (bind_emitted b)) c.
Proof.
  intros (_ & Huniq & _) Hb Hc. simpl.
  set (b1 := mkBinding _ _ _ _ _ _ _ _).
  assert (∀ j bj, j ≠ i → bindings c !! j = Some bj →
            bind_outer b ∉ binding_ids bj) as Hforeign.
  { intros j bj Hne Hj Hin. apply Hne.
    eapply (Huniq j i bj b (bind_outer b)); eauto.
    apply elem_of_binding_ids. auto. }
  apply (for_each_binding_split (binding_on_producer (bind_outer b) value) c i b
           (λ c1, c1 = c) (λ c1, c1 = binding_combine i b1 c));
    try done.
  - by intros c1 ->.
  - intros j bj c1 Hne -> Hj. apply binding_on_producer_foreign. eauto.
  - intros c1 ->. by apply binding_on_producer_outer.
  - intros j bj c1 Hne -> Hj. apply binding_on_producer_foreign.
    destruct (binding_combine_effect i b1 c) as [(b' & Hb') _].
    rewrite Hb', list_lookup_insert_ne in Hj by done. eauto.
Qed.

(** X14: on an initialised container a value arriving on the outer
    subscription of a live binding is patched into the field of the
    binding with exactly one push, kept as the latest value, and makes the
    binding take a fresh inner subscription on its producer. *)
Theorem producer_value_is_patched_and_switches (es : list Event) (i : nat)
    (b : Binding) (value : JSValue) (s : State) :
  bindings (run es new_container) !! i = Some b →
  bind_closed b = false →
  state_value (run es new_container) = Some s →
  let c' := step (run es new_container) (EProducerNext (bind_outer b) value) in
  snapshot c' = Ok (<[bind_key b := value]> s)
  ∧ state_pushes c'
    = state_pushes (run es new_container) ++ [<[bind_key b := value]> s]
  ∧ bindings c' !! i
    = Some (resubscribed b (next_sub (run es new_container)) value)
  ∧ subscribed c'
    = subscribed (run es new_container)
      ++ [(next_sub (run es new_container), bind_source b)].
Proof.
  intros Hb Hc Hv c'. subst c'. pose proof (run_ids_wf es) as Hwf.
  set (c := run es new_container) in *.
  rewrite (producer_next_outer value i b c Hwf Hb Hc).
  destruct Hwf as (Hbound & _). destruct (Hbound i b Hb) as (Ht & _).
  set (b1 := mkBinding _ _ _ _ _ _ _ _).
  destruct (binding_combine_ready i b1 value c Ht eq_refl)
    as (Hbs & _ & Hs & Hv' & Hp & _).
  destruct (patch_from_stream_initialized {[bind_key b := value]} s c Hv)
    as (Hpv & Hpp & _).
  unfold snapshot. rewrite Hv', Hp, Hs, Hbs. simpl.
  rewrite Hpv, Hpp, patch_newState_singleton. split_and!; try done.
  rewrite list_lookup_insert_eq by (by eapply lookup_lt_Some). done.
Qed.

Lemma binding_combine_unhandled i b value (c : Container) :
  bind_triggered b = true → bind_latest b = Some value →
  unhandled (binding_combine i b c)
  = unhandled (patch_from_stream {[bind_key b := value]} c).
Proof.
  intros Ht Hl. unfold binding_combine. rewrite Ht, Hl.
  unfold binding_switch, binding_deliver, patch_from_stream, patch. simpl.
  by destruct (state_value c).
Qed.

(** X15: a value arriving on the outer subscription of a live binding
    before [initialize] makes the [patch] in the subscriber callback fail:
    the cell stays uninitialised, nothing is pushed, the error is reported
    as unhandled, and the binding goes on, keeping the value as latest and
    taking its inner subscription. *)
Theorem producer_value_before_initialize (es : list Event) (i : nat)
    (b : Binding) (value : JSValue) :
  bindings (run es new_container) !! i = Some b →
  bind_closed b = false →
  state_value (run es new_container) = None →
  let c' := step (run es new_container) (EProducerNext (bind_outer b) value) in
  snapshot c' = Throw Uninitialized
  ∧ state_pushes c' = state_pushes (run es new_container)
  ∧ unhandled c' = unhandled (run es new_container) ++ [Uninitialized]
  ∧ bindings c' !! i
    = Some (resubscribed b (next_sub (run es new_container)) value).
Proof.
  intros Hb Hc Hv c'. subst c'. pose proof (run_ids_wf es) as Hwf.
  set (c := run es new_container) in *.
  rewrite (producer_next_outer value i b c Hwf Hb Hc).
  destruct Hwf as (Hbound & _). destruct (Hbound i b Hb) as (Ht & _).
  set (b1 := mkBinding _ _ _ _ _ _ _ _).
  destruct (binding_combine_ready i b1 value c Ht eq_refl)
    as (Hbs & _ & _ & Hv' & Hp & _).
  rewrite (binding_combine_unhandled i b1 value c Ht eq_refl).
  unfold snapshot. rewrite Hv', Hp, Hbs. simpl.
  rewrite patch_from_stream_uninitialized by done. simpl. rewrite Hv.
  split_and!; try done.
  rewrite list_lookup_insert_eq by (by eapply lookup_lt_Some). done.
Qed.

(** ** The input stream of [initialize] *)

Lemma inputs_wf_frame (c c' : Container) :
  in_sub <$> inputs c' = in_sub <$> inputs c →
  next_sub c ≤ next_sub c' →
  (is_Some (state_value c) → is_Some (state_value c')) →
  inputs_wf c → inputs_wf c'.
Proof.
  intros Hsubs Hn Hv (Hnodup & Hbound & Hinit). unfold inputs_wf.
  rewrite Hsubs. split_and!; [done | |].
  - eapply Forall_impl; [exact Hbound|]. intros sid Hlt. simpl in *. lia.
  - intros Hne. apply Hv, Hinit. intros Hnil.
    rewrite Hnil in Hsubs. by apply fmap_nil_inv in Hsubs.
Qed.

Lemma input_next_subs sid object (c : Container) :
  in_sub <$> inputs (input_next sid object c) = in_sub <$> inputs c.
Proof.
  apply (input_next_invariant
           (λ c', in_sub <$> inputs c' = in_sub <$> inputs c)); [done|].
  intros i s a Ha Hs _.
  destruct (input_deliver_frame i s object a) as (_&_&_&_&_&Hi).
  rewrite Hi, list_fmap_insert, <- Ha. simpl.
  apply list_insert_id. by rewrite list_lookup_fmap, Hs.
Qed.

Lemma connect_inputs object (c : Container) :
  inputs (connect object c) = inputs c
  ∧ next_sub c ≤ next_sub (connect object c).
Proof.
  unfold connect.
  apply (foldl_invariant
           (λ c', inputs c' = inputs c ∧ next_sub c ≤ next_sub c')); [done|].
  intros a entry (Hi & Hn).
  destruct (connect_key_frame a entry) as (_ & _ & Hi' & _).
  split; [congruence|]. etrans; [exact Hn|].
  destruct entry as [key source]. unfold connect_key, connect_subscribe.
  destruct (triggers a !! key); [|destruct (inherited key)]; simpl; lia.
Qed.

Lemma step_inputs_wf (c : Container) (e : Event) :
  inputs_wf c → inputs_wf (step c e).
Proof.
  intros Hwf. pose proof (step_stays_initialized c e) as Hv.
  destruct e as [state src|object|k|object|key|sid value|sid object| |sid|sid].
  - destruct Hwf as (Hnodup & Hbound & _). simpl. unfold initialize.
    destruct src as [source|]; simpl.
    + unfold inputs_wf. simpl. rewrite fmap_app. simpl. split_and!.
      * apply NoDup_app. split_and!; [done | | apply NoDup_singleton].
        intros sid Hin Hin'. apply list_elem_of_singleton in Hin'. subst.
        rewrite Forall_forall in Hbound. specialize (Hbound _ Hin). simpl in *.
        lia.
      * apply Forall_app. split; [|apply Forall_singleton; lia].
        eapply Forall_impl; [exact Hbound|]. intros sid Hlt. simpl in *. lia.
      * eauto.
    + unfold inputs_wf. simpl. split_and!; eauto.
  - simpl in *. apply (inputs_wf_frame c); try done.
    all: unfold patch; by destruct (state_value c).
  - by apply (inputs_wf_frame c).
  - simpl in *. destruct (connect_inputs object c) as [Hi Hn].
    apply (inputs_wf_frame c); [by rewrite Hi | done | done | done].
  - simpl in *. unfold trigger in *. destruct (triggers c !! key) as [r|];
      [|by destruct (inherited key)].
    set (c1 := with_triggers (<[key:=rs_next r]> (triggers c)) c) in *.
    destruct (for_each_binding_grows (binding_on_trigger key) c1)
      as (Hn&_&_&_&_&Hi&_); [auto with turns|].
    apply (inputs_wf_frame c); [by rewrite Hi | done | done | done].
  - simpl in *.
    destruct (for_each_binding_grows (binding_on_producer sid value) c)
      as (Hn&_&_&_&_&Hi&_); [auto with turns|].
    apply (inputs_wf_frame c); [by rewrite Hi | done | done | done].
  - simpl in *. destruct (input_next_frame sid object c) as (_&_&Hn&_).
    apply (inputs_wf_frame c); [apply input_next_subs | lia | done | done].
  - simpl in *. unfold ngOnDestroy in *. destruct (destroy_stopped c); [done|].
    apply (inputs_wf_frame c); try done. simpl.
    rewrite <- list_fmap_compose. by apply list_fmap_ext.
  - by apply (inputs_wf_frame c).
  - apply (inputs_wf_frame c); try done. simpl.
    rewrite <- list_fmap_compose. apply list_fmap_ext.
    intros j s _. simpl. by destruct (input_holds sid s).
Qed.

Lemma run_inputs_wf (es : list Event) : inputs_wf (run es new_container).
Proof.
  induction es as [|e es IH] using rev_ind.
  - split_and!; [constructor | constructor | done].
  - rewrite run_snoc. by apply step_inputs_wf.
Qed.

(** A loop over positions in which only position [i] does something. *)
Lemma foldl_seq_single {A} (g : A → nat → A) (a : A) (n i : nat) :
  i < n →
  (∀ j, j ≠ i → g a j = a) →
  (∀ j, j ≠ i → g (g a i) j = g a i) →
  foldl g a (seq 0 n) = g a i.
Proof.
  intros Hlt Hbefore Hafter.
  replace n with (i + (1 + (n - S i))) by lia.
  rewrite !seq_app, !foldl_app. simpl.
  assert (foldl g a (seq 0 i) = a) as ->.
  { apply (foldl_invariant_in (λ x, x = a)); [done|].
    intros x j Hj%elem_of_seq ->. apply Hbefore. lia. }
  apply (foldl_invariant_in (λ x, x = g a i)); [done|].
  intros x j Hj%elem_of_seq ->. apply Hafter. lia.
Qed.

(** X9: a container that holds a subscription to an input stream is
    initialised, and a value the stream delivers on a live subscription is
    merged into the state exactly like a [patch] call, with one push. *)
Theorem input_value_is_patched (es : list Event) (i : nat) (s : InputSub)
    (object : State) :
  inputs (run es new_container) !! i = Some s →
  in_closed s = false →
  ∃ current,
    state_value (run es new_container) = Some current
    ∧ let c' := step (run es new_container) (EInputNext (in_sub s) object) in
      snapshot c' = Ok (field_merge current object)
      ∧ state_pushes c'
        = state_pushes (run es new_container) ++ [field_merge current object]
      ∧ inputs c' !! i
        = Some (mkInput (in_source s) (in_sub s) false
                  (in_emitted s ++ [object])).
Proof.
  intros Hs Hlive. destruct (run_inputs_wf es) as (Hnodup & _ & Hinit).
  set (c := run es new_container) in *.
  destruct Hinit as [current Hv]. { intros Hnil. by rewrite Hnil in Hs. }
  exists current. split; [done|]. simpl.
  assert (input_next (in_sub s) object c = input_deliver i s object c) as ->.
  { unfold input_next. rewrite (foldl_seq_single _ c _ i).
    - by rewrite Hs, Hlive, Nat.eqb_refl.
    - by eapply lookup_lt_Some.
    - intros j Hne. destruct (inputs c !! j) as [sj|] eqn:Hj; [|done].
      destruct (in_closed sj); [done|].
      destruct (Nat.eqb_spec (in_sub sj) (in_sub s)) as [Heq|_]; [|done].
      destruct Hne. eapply (NoDup_lookup _ j i (in_sub s) Hnodup).
      + by rewrite list_lookup_fmap, Hj, <- Heq.
      + by rewrite list_lookup_fmap, Hs.
    - intros j Hne. rewrite Hs, Hlive, Nat.eqb_refl.
      destruct (input_deliver_frame i s object c) as (_&_&_&_&_&Hi).
      rewrite Hi, list_lookup_insert_ne by done.
      destruct (inputs c !! j) as [sj|] eqn:Hj; [|done].
      destruct (in_closed sj); [done|].
      destruct (Nat.eqb_spec (in_sub sj) (in_sub s)) as [Heq|_]; [|done].
      destruct Hne. eapply (NoDup_lookup _ j i (in_sub s) Hnodup).
      + by rewrite list_lookup_fmap, Hj, <- Heq.
      + by rewrite list_lookup_fmap, Hs. }
  destruct (patch_from_stream_initialized object current c Hv) as (Hpv & Hpp & _).
  unfold snapshot, input_deliver. simpl.
  rewrite Hpv, Hpp, patch_newState_field_merge. split_and!; try done.
  destruct (patch_from_stream_frame object c) as (_&_&Hi&_). rewrite Hi.
  rewrite list_lookup_insert_eq by (by eapply lookup_lt_Some).
  by rewrite Hlive.
Qed.

(** ** The further properties at concrete runs *)

Lemma emissions_follow_pushes_witness :
  ∃ l, l `sublist_of`
         state_pushes
           (run [EInitialize {["a" := VNum 0]} None; EPatch {["a" := VNum 0]};
                 ESubscribe StateStream; EPatch {["a" := VNum 1]}] new_container)
    ∧ received (mkObserver StateStream (Some {["a" := VNum 1]}) false
                  [{["a" := VNum 0]}; {["a" := VNum 1]}])
      = emission StateStream <$> l.
Proof.
  apply (emissions_follow_pushes
           [EInitialize {["a" := VNum 0]} None; EPatch {["a" := VNum 0]};
            ESubscribe StateStream; EPatch {["a" := VNum 1]}] 0
           (mkObserver StateStream (Some {["a" := VNum 1]}) false
              [{["a" := VNum 0]}; {["a" := VNum 1]}])).
  vm_compute. reflexivity.
Defined.

Lemma live_subscriber_is_up_to_date_witness :
  ∃ p, last [({["a" := VNum 0; "b" := VNum 0]} : State)] = Some p
    ∧ (p = {["a" := VNum 0; "b" := VNum 1]}
       ∨ comparator (OnlySelectWhen ["a"]) p {["a" := VNum 0; "b" := VNum 1]}
         = true).
Proof.
  apply (live_subscriber_is_up_to_date
           [EInitialize {["a" := VNum 0; "b" := VNum 0]} None;
            ESubscribe (OnlySelectWhen ["a"]); EPatch {["b" := VNum 1]}] 0
           (mkObserver (OnlySelectWhen ["a"])
              (Some {["a" := VNum 0; "b" := VNum 0]}) false
              [{["a" := VNum 0; "b" := VNum 0]}])
           {["a" := VNum 0; "b" := VNum 1]}).
  - vm_compute. reflexivity.
  - reflexivity.
  - vm_compute. reflexivity.
Defined.

Lemma unchanged_selection_is_not_emitted_witness :
  ∃ c' o',
    patch {["b" := VNum 1]}
      (run [EInitialize {["a" := VNum 0; "b" := VNum 0]} None;
            ESubscribe (Select "a")] new_container) = Ok c'
    ∧ state_observers c' !! 0 = Some o'
    ∧ received o'
      = received (mkObserver (Select "a")
                    (Some {["a" := VNum 0; "b" := VNum 0]}) false
                    [{["a" := VNum 0; "b" := VNum 0]}]).
Proof.
  apply (unchanged_selection_is_not_emitted
           [EInitialize {["a" := VNum 0; "b" := VNum 0]} None;
            ESubscribe (Select "a")] 0
           (mkObserver (Select "a") (Some {["a" := VNum 0; "b" := VNum 0]}) false
              [{["a" := VNum 0; "b" := VNum 0]}])
           ["a"] {["a" := VNum 0; "b" := VNum 0]} {["b" := VNum 1]}).
  - vm_compute. reflexivity.
  - reflexivity.
  - right. exists "a". split; reflexivity.
  - vm_compute. reflexivity.
  - intros key Hin. apply list_elem_of_singleton in Hin. subst key.
    vm_compute. reflexivity.
Defined.

Lemma nan_field_is_always_emitted_witness :
  ∃ c' o',
    patch {["a" := VNaN]}
      (run [EInitialize {["a" := VNaN]} None; ESubscribe (Select "a")]
         new_container) = Ok c'
    ∧ state_observers c' !! 0 = Some o'
    ∧ received o'
      = received (mkObserver (Select "a") (Some {["a" := VNaN]}) false
                    [{["a" := VNaN]}])
        ++ [emission (Select "a") (field_merge {["a" := VNaN]} {["a" := VNaN]})].
Proof.
  apply (nan_field_is_always_emitted
           (run [EInitialize {["a" := VNaN]} None; ESubscribe (Select "a")]
              new_container) 0
           (mkObserver (Select "a") (Some {["a" := VNaN]}) false
              [{["a" := VNaN]}])
           {["a" := VNaN]} {["a" := VNaN]}).
  - vm_compute. reflexivity.
  - vm_compute. reflexivity.
  - reflexivity.
  - vm_compute. reflexivity.
Defined.

Lemma select_never_repeats_a_value_witness :
  strict_eq (VRef 2) (VRef 1) = false.
Proof.
  apply (select_never_repeats_a_value
           [EInitialize {["a" := VRef 1]} None; ESubscribe (Select "a");
            EPatch {["a" := VRef 1]}; EPatch {["a" := VRef 2]}] 0 0
           (mkObserver (Select "a") (Some {["a" := VRef 2]}) false
              [{["a" := VRef 1]}; {["a" := VRef 2]}])
           "a" (VRef 1) (VRef 2)).
  - vm_compute. reflexivity.
  - reflexivity.
  - vm_compute. reflexivity.
  - vm_compute. reflexivity.
Defined.

Lemma input_value_is_patched_witness :
  ∃ current,
    state_value (run [EInitialize {["a" := VNum 0]} (Some 3)] new_container)
    = Some current
    ∧ snapshot (step (run [EInitialize {["a" := VNum 0]} (Some 3)] new_container)
                  (EInputNext 0 {["b" := VNum 1]}))
      = Ok (field_merge current {["b" := VNum 1]}).
Proof.
  destruct (input_value_is_patched
              [EInitialize {["a" := VNum 0]} (Some 3)] 0
              (mkInput 3 0 false []) {["b" := VNum 1]})
    as (current & Hv & Hsnap & _).
  - reflexivity.
  - reflexivity.
  - exists current. split; [exact Hv | exact Hsnap].
Defined.

Lemma trigger_without_value_only_counts_witness :
  trigger "x" (run [EInitialize {["a" := VNum 0]} None; EConnect [("x", 7)];
                    EDestroy] new_container)
  = Ok (with_triggers
          (<["x" := rs_next (mkReplay (Some ()) 1)]>
             (triggers (run [EInitialize {["a" := VNum 0]} None;
                             EConnect [("x", 7)]; EDestroy] new_container)))
          (run [EInitialize {["a" := VNum 0]} None; EConnect [("x", 7)];
                EDestroy] new_container)).
Proof.
  apply (trigger_without_value_only_counts
           [EInitialize {["a" := VNum 0]} None; EConnect [("x", 7)]; EDestroy]
           "x" (mkReplay (Some ()) 1)).
  - vm_compute. reflexivity.
  - intros i b Hb _. right. destruct i as [|i].
    + vm_compute in Hb. injection Hb as <-. reflexivity.
    + vm_compute in Hb. destruct i; discriminate Hb.
Defined.

Lemma trigger_touches_only_its_field_witness :
  ∃ s', snapshot
          (step (run [EInitialize {["a" := VNum 0]} None; EConnect [("x", 7)];
                      EProducerNext 0 (VNum 5); EPatch {["x" := VNum 9]}]
                   new_container) (ETrigger "x")) = Ok s'
    ∧ ∀ f, f ≠ "x" →
        s' !! f = ({["a" := VNum 0; "x" := VNum 9]} : State) !! f.
Proof.
  apply (trigger_touches_only_its_field
           (run [EInitialize {["a" := VNum 0]} None; EConnect [("x", 7)];
                 EProducerNext 0 (VNum 5); EPatch {["x" := VNum 9]}]
              new_container)
           (step (run [EInitialize {["a" := VNum 0]} None; EConnect [("x", 7)];
                       EProducerNext 0 (VNum 5); EPatch {["x" := VNum 9]}]
                    new_container) (ETrigger "x"))
           "x" {["a" := VNum 0; "x" := VNum 9]}).
  - vm_compute. reflexivity.
  - vm_compute. reflexivity.
Defined.

Lemma producer_value_is_patched_and_switches_witness :
  snapshot (step (run [EInitialize {["a" := VNum 0]} None; EConnect [("x", 7)]]
                    new_container) (EProducerNext 0 (VNum 5)))
  = Ok (<["x" := VNum 5]> {["a" := VNum 0]}).
Proof.
  apply (producer_value_is_patched_and_switches
           [EInitialize {["a" := VNum 0]} None; EConnect [("x", 7)]] 0
           (mkBinding "x" 7 0 true None None false []) (VNum 5)
           {["a" := VNum 0]}).
  - vm_compute. reflexivity.
  - reflexivity.
  - vm_compute. reflexivity.
Defined.

Lemma producer_value_before_initialize_witness :
  snapshot (step (run [EConnect [("x", 7)]] new_container)
              (EProducerNext 0 (VNum 5)))
  = Throw Uninitialized.
Proof.
  apply (producer_value_before_initialize
           [EConnect [("x", 7)]] 0
           (mkBinding "x" 7 0 true None None false []) (VNum 5)).
  - vm_compute. reflexivity.
  - reflexivity.
  - vm_compute. reflexivity.
Defined.

Lemma trigger_inherited_name_is_type_error_witness :
  triggers (run [EInitialize {["a" := VNum 0]} None; EConnect [("toString", 7)]]
              new_container) !! "toString" = None
  ∧ trigger "toString"
      (run [EInitialize {["a" := VNum 0]} None; EConnect [("toString", 7)]]
         new_container) = Throw TypeError.
Proof.
  apply (trigger_inherited_name_is_type_error
           [EInitialize {["a" := VNum 0]} None; EConnect [("toString", 7)]]
           "toString").
  reflexivity.
Defined.
